(** * hyperglass UI: the looking-glass query state and its accessors

    A shallow embedding of [hyperglass/ui/hooks/useLGState.ts] (the global
    query state, the [MethodsInstance] convenience functions attached to it)
    and of [hyperglass/ui/components/path/path.tsx] (the path modal).

    The hookstate store is a single-threaded mutable record; every accessor
    is embedded as a function of the current [TLGState] value, and every
    mutator as a function from the old value to the new one. *)

From stdpp Require Import gmap strings list fin_maps.

Local Open Scope string_scope.
Set Warnings "-register-all".

(** ** [~/util] *)

Module Util.

(** Modelled from the spec: [all] is imported from [~/util], which is not part
    of the excerpt.  The readiness invariant reads "[isSubmitting] is true AND
    [queryType], [queryGroup], [queryTarget] are non-empty AND [queryLocation]
    is non-empty", so [all(...iter)] is the conjunction of its arguments: it
    scans them in order and answers false at the first falsy one. *)
Fixpoint all (iter : list bool) : bool :=
  match iter with
  | [] => true
  | i :: rest => if negb i then false else all rest
  end.

End Util.

(** ** [~/types] and [./types] *)

(** Modelled from the spec: [TDirective] is declared in [~/types].  A directive
    is "a descriptor of an available query type"; the accessors only read its
    [id], the [name] stands for the rest of the descriptor. *)
Record TDirective := mkDirective {
  id : string;
  name : string;
}.

(** Modelled from the spec: [TQueryResponse] is a global declaration outside
    the excerpt: "the result of querying one device, including raw and
    structured output".  The path view reads only [output]. *)
Record TQueryResponse := mkResponse {
  output : string;
  level : string;
}.

Record TSelections := mkSelections {
  sel_queryLocation : list string;
  sel_queryType : option string;
  sel_queryVrf : option string;
  sel_queryGroup : option string;
}.

(** The shape of the global state, field by field as [createState] lists
    them.  [responses] is a JS object used as a map from device id to
    response: a finite map over its own keys. *)
Record TLGState := mkLGState {
  selections : TSelections;
  resolvedIsOpen : bool;
  isSubmitting : bool;
  availableGroups : list string;
  availableTypes : list TDirective;
  directive : option TDirective;
  displayTarget : string;
  queryLocation : list string;
  btnLoading : bool;
  queryTarget : string;
  queryGroup : string;
  queryType : string;
  availVrfs : list string;
  responses : gmap string TQueryResponse;
  queryVrf : string;
  families : list Z;
}.

(** ** JavaScript values and the ways a call can end

    [stateExporter] takes any value, so it is embedded over a small store
    model: primitives are immediate, arrays, objects and functions live in a
    heap and are named by reference, which is what lets a structure contain
    itself.  Of the ways an object can run code while it is serialized, the
    model has the [toJSON] method; getters and proxies are left out. *)

Module JS.

Definition loc := positive.

(** Numbers.  A finite double is a signed zero or [± mantissa · 2^exponent];
    the three values that are not finite are kept apart because JSON has no
    text for them. *)
Inductive finite :=
| Zero (negative : bool)
| Binary (negative : bool) (mantissa : positive) (exponent : Z).

Inductive number :=
| Finite (x : finite)
| NaN
| Infinity (negative : bool).

Inductive val :=
| VUndefined
| VNull
| VBool (b : bool)
| VNumber (n : number)
| VString (s : string)
| VSymbol (description : string)
| VBigInt (z : Z)
| VRef (l : loc).

#[global] Instance finite_eq_dec : EqDecision finite.
Proof. solve_decision. Defined.

#[global] Instance number_eq_dec : EqDecision number.
Proof. solve_decision. Defined.

#[global] Instance val_eq_dec : EqDecision val.
Proof. solve_decision. Defined.

(** What a [throw] can carry besides an [Error] instance: a primitive, an
    ordinary object, or an object without a prototype
    ([Object.create(null)]), which has no [toString]. *)
Inductive thrown :=
| ThrownUndefined
| ThrownNull
| ThrownBool (b : bool)
| ThrownString (s : string)
| ThrownObject
| ThrownBare.

(** What a [catch] receives: an [Error] instance, of which the program reads
    the [message], or another value. *)
Inductive exn :=
| ExnError (kind message : string)
| ExnOther (v : thrown).

(** What calling a [toJSON] method does to its caller. *)
Inductive behaviour :=
| Returns (v : val)
| Throws (e : exn).

Inductive obj :=
| OArray (items : list val)
| OObject (props : list (string * val))
| OFunction
| OHooked (toJSON : behaviour) (props : list (string * val)).

(** The own enumerable properties that [JSON.stringify] walks. *)
Definition own_props (o : obj) : list (string * val) :=
  match o with
  | OObject props | OHooked _ props => props
  | OArray _ | OFunction => []
  end.

(** The ways the model itself can fail to follow the program: a run that
    exhausts the recursion budget, or a reference to a cell the heap does not
    hold (no JavaScript value is like that). *)
Inductive stuck :=
| OutOfFuel
| Dangling (l : loc).

Inductive outcome (A : Type) :=
| Ok (a : A)
| Throw (e : exn)
| Stuck (w : stuck).

Arguments Ok {A} a.
Arguments Throw {A} e.
Arguments Stuck {A} w.

#[global] Instance outcome_ret : MRet outcome := λ A a, Ok a.

#[global] Instance outcome_bind : MBind outcome := λ A B f m,
  match m with
  | Ok a => f a
  | Throw e => Throw e
  | Stuck w => Stuck w
  end.

(** [f] on each element from left to right; the first failure wins. *)
Fixpoint each {A B : Type} (f : A → outcome B) (l : list A)
    : outcome (list B) :=
  match l with
  | [] => Ok []
  | a :: rest => b ← f a; bs ← each f rest; Ok (b :: bs)
  end.

(** [f] on each element from left to right, passing the heap along. *)
Fixpoint thread {A B H : Type} (f : A → H → B * H) (l : list A) (h : H)
    : list B * H :=
  match l with
  | [] => ([], h)
  | a :: rest =>
      let '(b, h1) := f a h in
      let '(bs, h2) := thread f rest h1 in
      (b :: bs, h2)
  end.

(** The heap and the messages handed to [console.error], oldest first. *)
Record world := mkWorld {
  heap : gmap loc obj;
  console : list string;
}.

(** What the program takes from the engine and from hookstate as it finds
    it.  The texts of the errors they raise by themselves are only passed on
    and differ from one engine to the next, so they are left open:
    [circular_message h stack l] is the text for the cycle found when the
    cell [l] is met again while the cells of [stack] are being serialized.
    Also left open is whether hookstate finds the handle of a stored key
    that has the name of an inherited property, or fails on it as it does
    when the key is not stored: [shadowed_read_throws]. *)
Class Engine := {
  circular_message : gmap loc obj → list loc → loc → string;
  bigint_message : string;
  not_primitive_message : string;
  state_read_message : string → string;
  shadowed_read_throws : string → bool;
}.

(** [String(v)] for a thrown value that is not an [Error]. *)
Definition ToString `{Engine} (v : thrown) : outcome string :=
  match v with
  | ThrownUndefined => Ok "undefined"
  | ThrownNull => Ok "null"
  | ThrownBool true => Ok "true"
  | ThrownBool false => Ok "false"
  | ThrownString s => Ok s
  | ThrownObject => Ok "[object Object]"
  | ThrownBare => Throw (ExnError "TypeError" not_primitive_message)
  end.

End JS.

(** ** hookstate: [state.merge] and field writes *)

Module Hookstate.

(** The argument of [state.merge({...})]: an object literal that mentions
    some of the keys of the state.  A key that the literal leaves out is
    [None]. *)
Record Partial := mkPartial {
  p_selections : option TSelections;
  p_resolvedIsOpen : option bool;
  p_isSubmitting : option bool;
  p_availableGroups : option (list string);
  p_availableTypes : option (list TDirective);
  p_directive : option (option TDirective);
  p_displayTarget : option string;
  p_queryLocation : option (list string);
  p_btnLoading : option bool;
  p_queryTarget : option string;
  p_queryGroup : option string;
  p_queryType : option string;
  p_availVrfs : option (list string);
  p_responses : option (gmap string TQueryResponse);
  p_queryVrf : option string;
  p_families : option (list Z);
}.

(** [state.merge(p)] on an object state: every key of [p] is assigned, key by
    key (a shallow merge); the other keys keep their value. *)
Definition merge (p : Partial) (s : TLGState) : TLGState :=
  {| selections := default (selections s) (p_selections p);
     resolvedIsOpen := default (resolvedIsOpen s) (p_resolvedIsOpen p);
     isSubmitting := default (isSubmitting s) (p_isSubmitting p);
     availableGroups := default (availableGroups s) (p_availableGroups p);
     availableTypes := default (availableTypes s) (p_availableTypes p);
     directive := default (directive s) (p_directive p);
     displayTarget := default (displayTarget s) (p_displayTarget p);
     queryLocation := default (queryLocation s) (p_queryLocation p);
     btnLoading := default (btnLoading s) (p_btnLoading p);
     queryTarget := default (queryTarget s) (p_queryTarget p);
     queryGroup := default (queryGroup s) (p_queryGroup p);
     queryType := default (queryType s) (p_queryType p);
     availVrfs := default (availVrfs s) (p_availVrfs p);
     responses := default (responses s) (p_responses p);
     queryVrf := default (queryVrf s) (p_queryVrf p);
     families := default (families s) (p_families p) |}.

(** [state.responses[device].set(r)]: the write the submission pipeline does
    when the answer of [device] arrives; a field write is the merge of a
    one-key literal. *)
Definition set_response (device : string) (r : TQueryResponse)
    (s : TLGState) : TLGState :=
  merge {| p_selections := None; p_resolvedIsOpen := None;
           p_isSubmitting := None; p_availableGroups := None;
           p_availableTypes := None; p_directive := None;
           p_displayTarget := None; p_queryLocation := None;
           p_btnLoading := None; p_queryTarget := None;
           p_queryGroup := None; p_queryType := None; p_availVrfs := None;
           p_responses := Some (<[device := r]> (responses s));
           p_queryVrf := None; p_families := None |} s.


(** What [state.responses[key].value] can evaluate to: a stored response,
    [undefined], or, for the member [ornull], the mapping itself.  [Null] is
    the [null] that [getResponse] returns by itself. *)
Inductive read :=
| Response (r : TQueryResponse)
| Null
| Undefined
| Responses (m : gmap string TQueryResponse).

(** The property names every object literal inherits from
    [Object.prototype]. *)
Definition Object_prototype : list string :=
  [ "constructor"; "__defineGetter__"; "__defineSetter__"; "hasOwnProperty";
    "__lookupGetter__"; "__lookupSetter__"; "isPrototypeOf";
    "propertyIsEnumerable"; "toString"; "valueOf"; "__proto__";
    "toLocaleString" ].

(** The members hookstate's [State] handle has of its own.  Reading one of
    these names off a handle gives the member, not the handle of a nested
    key. *)
Definition State_members : list string :=
  [ "path"; "keys"; "value"; "ornull"; "promised"; "error"; "get"; "set";
    "merge"; "nested"; "batch"; "attach"; "destroy" ].

(** [key in state.responses]: the handle answers for the object it wraps,
    and [in] looks through the prototype chain. *)
Definition has (m : gmap string TQueryResponse) (key : string) : bool :=
  bool_decide (key ∈ dom m) || bool_decide (key ∈ Object_prototype).

(** [state.responses[key].value].
    - [value] is the wrapped object, so [.value] reads its key ["value"];
      [ornull] is the handle itself, so [.value] is the whole mapping;
      [error] is [undefined], of which no property can be read; the other
      members are functions, arrays or a boolean, which have no [value].
    - For any other key the handle of the nested key is looked up and
      [.value] is the stored response.  For a name found on
      [Object.prototype] the lookup gives no handle when the key is not
      stored, and the read of [.value] throws; when such a name is stored
      the engine decides.  A key that is nowhere reads [undefined]. *)
Definition nested_value `{JS.Engine} (m : gmap string TQueryResponse)
    (key : string) : JS.outcome read :=
  if bool_decide (key ∈ State_members) then
    if bool_decide (key = "value") then
      JS.Ok (from_option Response Undefined (m !! key))
    else if bool_decide (key = "ornull") then JS.Ok (Responses m)
    else if bool_decide (key = "error") then
      JS.Throw (JS.ExnError "TypeError" (JS.state_read_message key))
    else JS.Ok Undefined
  else
    match m !! key with
    | Some r =>
        if bool_decide (key ∈ Object_prototype) &&
           JS.shadowed_read_throws key
        then JS.Throw (JS.ExnError "TypeError" (JS.state_read_message key))
        else JS.Ok (Response r)
    | None =>
        if bool_decide (key ∈ Object_prototype) then
          JS.Throw (JS.ExnError "TypeError" (JS.state_read_message key))
        else JS.Ok Undefined
    end.


End Hookstate.

(** ** [class MethodsInstance]: the accessors over the state *)

Module MethodsInstance.

(** [state.resolvedIsOpen.set(b)], written as the merge of [{resolvedIsOpen: b}]. *)
Definition resolvedOpen (state : TLGState) : TLGState :=
  Hookstate.merge
    {| Hookstate.p_selections := None;
       Hookstate.p_resolvedIsOpen := Some true;
       Hookstate.p_isSubmitting := None; Hookstate.p_availableGroups := None;
       Hookstate.p_availableTypes := None; Hookstate.p_directive := None;
       Hookstate.p_displayTarget := None; Hookstate.p_queryLocation := None;
       Hookstate.p_btnLoading := None; Hookstate.p_queryTarget := None;
       Hookstate.p_queryGroup := None; Hookstate.p_queryType := None;
       Hookstate.p_availVrfs := None; Hookstate.p_responses := None;
       Hookstate.p_queryVrf := None; Hookstate.p_families := None |} state.

Definition resolvedClose (state : TLGState) : TLGState :=
  Hookstate.merge
    {| Hookstate.p_selections := None;
       Hookstate.p_resolvedIsOpen := Some false;
       Hookstate.p_isSubmitting := None; Hookstate.p_availableGroups := None;
       Hookstate.p_availableTypes := None; Hookstate.p_directive := None;
       Hookstate.p_displayTarget := None; Hookstate.p_queryLocation := None;
       Hookstate.p_btnLoading := None; Hookstate.p_queryTarget := None;
       Hookstate.p_queryGroup := None; Hookstate.p_queryType := None;
       Hookstate.p_availVrfs := None; Hookstate.p_responses := None;
       Hookstate.p_queryVrf := None; Hookstate.p_families := None |} state.

(** [getResponse]: the [in] test, then the read through the handle. *)
Definition getResponse `{JS.Engine} (state : TLGState) (device : string)
    : JS.outcome Hookstate.read :=
  if Hookstate.has (responses state) device
  then Hookstate.nested_value (responses state) device
  else JS.Ok Hookstate.Null.

(** [getDirective]: [filter] keeps the entries whose id is [name], in order;
    the array pattern [[directive]] binds the first of them, or [undefined]
    when there is none, which the [typeof] test turns into [null]. *)
Definition getDirective (state : TLGState) (name : string)
    : option TDirective :=
  match filter (λ t, id t = name) (availableTypes state) with
  | directive :: _ => Some directive
  | [] => None
  end.

Definition formReady (state : TLGState) : bool :=
  isSubmitting state &&
  Util.all
    [ bool_decide (queryType state ≠ "");
      bool_decide (queryGroup state ≠ "");
      bool_decide (queryTarget state ≠ "");
      bool_decide (length (queryLocation state) ≠ 0) ].

Definition resetForm (state : TLGState) : TLGState :=
  Hookstate.merge
    {| Hookstate.p_queryVrf := Some "";
       Hookstate.p_families := Some [];
       Hookstate.p_queryType := Some "";
       Hookstate.p_queryGroup := Some "";
       Hookstate.p_responses := Some ∅;
       Hookstate.p_queryTarget := Some "";
       Hookstate.p_queryLocation := Some [];
       Hookstate.p_displayTarget := Some "";
       Hookstate.p_btnLoading := Some false;
       Hookstate.p_isSubmitting := Some false;
       Hookstate.p_resolvedIsOpen := Some false;
       Hookstate.p_availVrfs := Some [];
       Hookstate.p_availableGroups := Some [];
       Hookstate.p_availableTypes := Some [];
       Hookstate.p_selections := Some (mkSelections [] None None None);
       Hookstate.p_directive := None |} state.

End MethodsInstance.

(** ** [const LGState = createState<TLGState>({...})] *)

Definition LGState : TLGState :=
  {| selections := mkSelections [] None None None;
     resolvedIsOpen := false;
     isSubmitting := false;
     availableGroups := [];
     availableTypes := [];
     directive := None;
     displayTarget := "";
     queryLocation := [];
     btnLoading := false;
     queryTarget := "";
     queryGroup := "";
     queryType := "";
     availVrfs := [];
     responses := ∅;
     queryVrf := "";
     families := [] |}.


(** ** The built-in [JSON] object

    A JSON text is kept as its syntax tree: [stringify] produces the tree
    whose rendering is the text, [parse] builds the value the text denotes.
    Scanning and printing characters is left out.  A number is kept as the
    double its text denotes; printing a finite double and reading the text
    back gives the same double, except that [-0] is printed as [0], which is
    why a numeral has one zero only. *)

Module JSON.
Import JS.

Inductive numeral :=
| NumZero
| NumBinary (negative : bool) (mantissa : positive) (exponent : Z).

Definition numeral_of (x : finite) : numeral :=
  match x with
  | Zero _ => NumZero
  | Binary negative mantissa exponent => NumBinary negative mantissa exponent
  end.

Definition double_of (n : numeral) : finite :=
  match n with
  | NumZero => Zero false
  | NumBinary negative mantissa exponent => Binary negative mantissa exponent
  end.

Inductive json :=
| JNull
| JBool (b : bool)
| JNumber (n : numeral)
| JString (s : string)
| JArray (items : list json)
| JObject (members : list (string * json)).

Definition circular `{Engine} (h : gmap loc obj) (stack : list loc) (l : loc)
    : exn :=
  ExnError "TypeError" (circular_message h stack l).

Definition not_json : exn :=
  ExnError "SyntaxError" "Unexpected token u in JSON at position 0".

(** The first step of SerializeJSONProperty: a value with a [toJSON] method
    is replaced by what the method returns, once; what the method throws
    leaves [stringify]. *)
Definition toJSON (h : gmap loc obj) (v : val) : outcome val :=
  match v with
  | VRef l =>
      match h !! l with
      | Some (OHooked (Returns v') _) => Ok v'
      | Some (OHooked (Throws e) _) => Throw e
      | _ => Ok v
      end
  | _ => Ok v
  end.

(** SerializeJSONProperty.  [stack] holds the objects being serialized around
    the current value; meeting one of them again is the cycle that throws.
    The answer [None] is [undefined]: the value (undefined, a symbol, a
    function) has no JSON rendering.  An array shows such an element as
    [null], an object drops the property.  Numbers that are not finite are
    rendered [null]; a BigInt throws. *)
Fixpoint serialize `{Engine} (fuel : nat) (h : gmap loc obj)
    (stack : list loc) (v : val) : outcome (option json) :=
  value ← toJSON h v;
  match value with
  | VUndefined | VSymbol _ => Ok None
  | VNull => Ok (Some JNull)
  | VBool b => Ok (Some (JBool b))
  | VNumber (Finite x) => Ok (Some (JNumber (numeral_of x)))
  | VNumber _ => Ok (Some JNull)
  | VString s => Ok (Some (JString s))
  | VBigInt _ => Throw (ExnError "TypeError" bigint_message)
  | VRef l =>
      match h !! l with
      | None => Stuck (Dangling l)
      | Some OFunction => Ok None
      | Some cell =>
          if decide (l ∈ stack) then Throw (circular h stack l)
          else
            match fuel with
            | 0 => Stuck OutOfFuel
            | S fuel' =>
                match cell with
                | OArray items =>
                    ts ← each (serialize fuel' h (l :: stack)) items;
                    Ok (Some (JArray (default JNull <$> ts)))
                | _ =>
                    ts ← each (λ kv, t ← serialize fuel' h (l :: stack) kv.2;
                                     Ok (kv.1, t)) (own_props cell);
                    Ok (Some (JObject (omap (λ kt, pair kt.1 <$> kt.2) ts)))
                end
            end
      end
  end.

(** [JSON.stringify(value)]: a nesting deeper than the number of cells of the
    heap has met some cell twice, so this budget is never exhausted. *)
Definition stringify `{Engine} (h : gmap loc obj) (v : val)
    : outcome (option json) :=
  serialize (S (size h)) h [] v.

(** The value a JSON tree denotes, built bottom-up; every array and object is
    a newly allocated cell. *)
Fixpoint build (j : json) (h : gmap loc obj) : val * gmap loc obj :=
  match j with
  | JNull => (VNull, h)
  | JBool b => (VBool b, h)
  | JNumber n => (VNumber (Finite (double_of n)), h)
  | JString s => (VString s, h)
  | JArray items =>
      let '(vs, h1) := thread build items h in
      let l := fresh (dom h1) in
      (VRef l, <[l := OArray vs]> h1)
  | JObject members =>
      let '(ps, h1) :=
        thread (λ kj h, let '(v, h1) := build kj.2 h in ((kj.1, v), h1))
               members h in
      let l := fresh (dom h1) in
      (VRef l, <[l := OObject ps]> h1)
  end.

(** [JSON.parse(text)].  The argument is what [stringify] answered: a text, or
    [undefined], which [parse] first turns into the string "undefined", not a
    JSON text, hence the SyntaxError. *)
Definition parse (text : option json) (h : gmap loc obj)
    : outcome (val * gmap loc obj) :=
  match text with
  | Some j => Ok (build j h)
  | None => Throw not_json
  end.

End JSON.

Module Exporter.
Import JS.

(** [MethodsInstance.stateExporter]: the [try] body is the round trip.  The
    [catch] takes [err.message] of an [Error] and [String(err)] of anything
    else, logs it and falls through to [return result] with [result] still
    [null]; an exception of [String(err)] is raised inside the handler, so
    nothing catches it. *)
Definition stateExporter `{Engine} (obj : val) (w : world)
    : outcome val * world :=
  let result := VNull in
  if decide (obj = VNull) then (Ok result, w)
  else
    match text ← JSON.stringify (heap w) obj; JSON.parse text (heap w) with
    | Ok (parsed, h') => (Ok parsed, mkWorld h' (console w))
    | Throw err =>
        let error :=
          match err with
          | ExnError _ message => Ok message
          | ExnOther other => ToString other
          end in
        match error with
        | Ok error => (Ok result, mkWorld (heap w) (console w ++ [error]))
        | Throw escaped => (Throw escaped, w)
        | Stuck s => (Stuck s, w)
        end
    | Stuck s => (Stuck s, w)
    end.

End Exporter.

(** ** Plain data

    [denotes h v t]: in heap [h] the value [v] is plain data whose content is
    the JSON tree [t].  There is no rule for [undefined], a symbol, a BigInt,
    a function, an object with a [toJSON] method, nor for a number that is
    not finite, and a derivation is a finite tree, so a value that reaches
    itself denotes nothing.  Two values are equal in value when they denote
    the same tree; the two zeros are, as they are for [===]. *)

Module Plain.
Import JS JSON.

Inductive denotes (h : gmap loc obj) : val → json → Prop :=
| den_null : denotes h VNull JNull
| den_bool b : denotes h (VBool b) (JBool b)
| den_number x : denotes h (VNumber (Finite x)) (JNumber (numeral_of x))
| den_string s : denotes h (VString s) (JString s)
| den_array l items ts :
    h !! l = Some (OArray items) →
    Forall2 (denotes h) items ts →
    denotes h (VRef l) (JArray ts)
| den_object l props ms :
    h !! l = Some (OObject props) →
    Forall2 (λ kv kt, kv.1 = kt.1 ∧ denotes h kv.2 kt.2) props ms →
    denotes h (VRef l) (JObject ms).

(** The values a cell stores: its elements, the values of its properties,
    and what its [toJSON] returns. *)
Definition stored (o : obj) : list val :=
  match o with
  | OArray items => items
  | OObject props => props.*2
  | OFunction => []
  | OHooked (Returns v) props => v :: props.*2
  | OHooked (Throws _) props => props.*2
  end.

(** A heap is closed when every reference stored in it names one of its
    cells, as in any JavaScript store. *)
Definition val_ok (h : gmap loc obj) (v : val) : Prop :=
  match v with
  | VRef l => is_Some (h !! l)
  | _ => True
  end.

Definition obj_ok (h : gmap loc obj) (o : obj) : Prop :=
  Forall (val_ok h) (stored o).

Definition closed (h : gmap loc obj) : Prop :=
  map_Forall (λ _ o, obj_ok h o) h.

(** No object of the store has a [toJSON] method: serializing runs no code
    of the program. *)
Definition quiet (h : gmap loc obj) : Prop :=
  map_Forall (λ _ o, match o with OHooked _ _ => False | _ => True end) h.

(** [v] is not a BigInt, and no BigInt is stored anywhere. *)
Definition is_bigint (v : val) : Prop :=
  match v with
  | VBigInt _ => True
  | _ => False
  end.

Definition bigint_free (h : gmap loc obj) (v : val) : Prop :=
  ¬ is_bigint v ∧
  map_Forall (λ _ o, Forall (λ v', ¬ is_bigint v') (stored o)) h.

#[global] Instance val_ok_dec h v : Decision (val_ok h v).
Proof. destruct v; simpl; apply _. Defined.

#[global] Instance obj_ok_dec h o : Decision (obj_ok h o).
Proof. unfold obj_ok. apply _. Defined.

#[global] Instance closed_dec h : Decision (closed h).
Proof. unfold closed. apply _. Defined.

#[global] Instance quiet_dec h : Decision (quiet h).
Proof.
  unfold quiet. apply map_Forall_dec. intros i o. destruct o; apply _.
Defined.

#[global] Instance is_bigint_dec v : Decision (is_bigint v).
Proof. destruct v; simpl; apply _. Defined.

#[global] Instance bigint_free_dec h v : Decision (bigint_free h v).
Proof. unfold bigint_free. apply _. Defined.

(** The invariant of the traversal: the cells on the stack are distinct cells
    of the heap, and the budget left covers the cells not yet entered. *)
Definition stack_ok (h : gmap loc obj) (fuel : nat) (stack : list loc) : Prop :=
  NoDup stack ∧ (∀ a, a ∈ stack → is_Some (h !! a)) ∧
  (size h < fuel + length stack)%nat.

(** Nesting depth of a tree. *)
Fixpoint height (j : json) : nat :=
  match j with
  | JArray items => S (foldr (λ t n, height t `max` n) 0 items)
  | JObject members => S (foldr (λ kt n, height kt.2 `max` n) 0 members)
  | _ => 0
  end.

End Plain.

(** ** Reachability in the store *)

Module Reach.
Import JS.

(** The value [v] is stored in the cell [l]. *)
Definition holds (h : gmap loc obj) (l : loc) (v : val) : Prop :=
  ∃ o, h !! l = Some o ∧ v ∈ Plain.stored o.

(** Following stored values from [v] leads to the cell [l]. *)
Inductive reaches (h : gmap loc obj) : val → loc → Prop :=
| reaches_here l : reaches h (VRef l) l
| reaches_step l0 v l :
    holds h l0 v → reaches h v l → reaches h (VRef l0) l.

(** From [v] one can reach an array or object that leads back to itself.
    (A function stores nothing, so it is on no cycle.) *)
Definition cyclic (h : gmap loc obj) (v : val) : Prop :=
  ∃ l v', reaches h v l ∧ holds h l v' ∧ reaches h v' l.

End Reach.

(** ** What [JSON.stringify] makes of a value that is not plain data

    [renders h v o], for a store without [toJSON] methods and without
    BigInts: the JSON rendering of [v] is [o], where [None] says that there
    is none.  [undefined], a symbol and a function have none; a number that
    is not finite renders as [null] and [-0] as [0]; an element of an array
    that has no rendering shows as [null]; a property that has none is left
    out. *)

Module Rendering.
Import JS JSON.

Inductive renders (h : gmap loc obj) : val → option json → Prop :=
| ren_undefined : renders h VUndefined None
| ren_symbol description : renders h (VSymbol description) None
| ren_function l : h !! l = Some OFunction → renders h (VRef l) None
| ren_null : renders h VNull (Some JNull)
| ren_bool b : renders h (VBool b) (Some (JBool b))
| ren_finite x :
    renders h (VNumber (Finite x)) (Some (JNumber (numeral_of x)))
| ren_nan : renders h (VNumber NaN) (Some JNull)
| ren_infinity negative :
    renders h (VNumber (Infinity negative)) (Some JNull)
| ren_string s : renders h (VString s) (Some (JString s))
| ren_array l items os :
    h !! l = Some (OArray items) →
    Forall2 (renders h) items os →
    renders h (VRef l) (Some (JArray (default JNull <$> os)))
| ren_object l props kos :
    h !! l = Some (OObject props) →
    Forall2 (λ (kv : string * val) (ko : string * option json),
               kv.1 = ko.1 ∧ renders h kv.2 ko.2) props kos →
    renders h (VRef l)
      (Some (JObject (omap (λ ko : string * option json,
                              pair ko.1 <$> ko.2) kos))).

End Rendering.

(** ** [components/path/path.tsx] *)

Module PathView.
Import JS.

(** What a component holds after destructuring a name out of the object a
    hook returned. *)
Inductive member :=
| Handle (key : string)
| Function (f : string → outcome Hookstate.read).

(** [useLGState()] is [useState(LGState)]: the hookstate handle of the whole
    state.  Reading a property [key] of it (other than hookstate's own
    [get], [set], [value], ...) gives the handle of the subtree [state[key]],
    a proxy object, whether or not the state has that key. *)
Definition useLGState (key : string) : member := Handle key.

(** [useLGMethods()] spreads [Methods(state)]: its [getResponse] is
    [device => instance.getResponse(inst, device)]. *)
Definition useLGMethods_getResponse `{Engine} (state : TLGState) : member :=
  Function (MethodsInstance.getResponse state).

(** [m(arg)]: only a function can be applied. *)
Definition call (m : member) (arg : string)
    : outcome Hookstate.read :=
  match m with
  | Function f => f arg
  | Handle key => Throw (ExnError "TypeError" (key ++ " is not a function"))
  end.

(** [`${m.value}`] for a handle of one of the string fields; a key the state
    does not have reads [undefined]. *)
Definition value_text (state : TLGState) (m : member) : string :=
  match m with
  | Handle key =>
      if decide (key = "displayTarget") then displayTarget state
      else if decide (key = "queryTarget") then queryTarget state
      else if decide (key = "queryGroup") then queryGroup state
      else if decide (key = "queryType") then queryType state
      else if decide (key = "queryVrf") then queryVrf state
      else "undefined"
  | Function _ => "undefined"
  end.

(** [response?.output]: the [output] of a response; of the whole mapping, the
    entry it has under ["output"]; of [null] and [undefined], nothing. *)
Definition output_of (response : Hookstate.read)
    : option (string + TQueryResponse) :=
  match response with
  | Hookstate.Response r => Some (inl (output r))
  | Hookstate.Responses m => inr <$> m !! "output"
  | Hookstate.Null | Hookstate.Undefined => None
  end.

(** The children of [ModalBody] and the text of [ModalHeader]; the chrome
    around them does not depend on the state. *)
Inductive element :=
| Chart (data : option (string + TQueryResponse))
| Skeleton (w h : string).

Record modal := mkModal {
  header : string;
  body : element;
}.

(** The component from [const response = getResponse(device)] on, given what
    the two destructurings produced. *)
Definition view (getResponse displayTarget : member) (state : TLGState)
    (device : string) : outcome modal :=
  response ← call getResponse device;
  let output := output_of response in
  Ok {| header := "Path to " ++ value_text state displayTarget;
        body := match response with
                | Hookstate.Null => Skeleton "500px" "300px"
                | _ => Chart output
                end |}.

Definition Path (state : TLGState) (device : string) : outcome modal :=
  let getResponse := useLGState "getResponse" in
  let displayTarget := useLGState "displayTarget" in
  view getResponse displayTarget state device.

End PathView.

(** ** Relations between states used by the statements *)

(** The two states carry the same value in every field except [queryVrf]. *)
Definition same_but_queryVrf (s1 s2 : TLGState) : Prop :=
  selections s1 = selections s2 ∧
  resolvedIsOpen s1 = resolvedIsOpen s2 ∧
  isSubmitting s1 = isSubmitting s2 ∧
  availableGroups s1 = availableGroups s2 ∧
  availableTypes s1 = availableTypes s2 ∧
  directive s1 = directive s2 ∧
  displayTarget s1 = displayTarget s2 ∧
  queryLocation s1 = queryLocation s2 ∧
  btnLoading s1 = btnLoading s2 ∧
  queryTarget s1 = queryTarget s2 ∧
  queryGroup s1 = queryGroup s2 ∧
  queryType s1 = queryType s2 ∧
  availVrfs s1 = availVrfs s2 ∧
  responses s1 = responses s2 ∧
  families s1 = families s2.

(** [state.queryVrf.set(v)]. *)
Definition set_queryVrf (v : string) (s : TLGState) : TLGState :=
  Hookstate.merge
    {| Hookstate.p_selections := None; Hookstate.p_resolvedIsOpen := None;
       Hookstate.p_isSubmitting := None; Hookstate.p_availableGroups := None;
       Hookstate.p_availableTypes := None; Hookstate.p_directive := None;
       Hookstate.p_displayTarget := None; Hookstate.p_queryLocation := None;
       Hookstate.p_btnLoading := None; Hookstate.p_queryTarget := None;
       Hookstate.p_queryGroup := None; Hookstate.p_queryType := None;
       Hookstate.p_availVrfs := None; Hookstate.p_responses := None;
       Hookstate.p_queryVrf := Some v; Hookstate.p_families := None |} s.

(** A filled-in form, as in the end-to-end scenario of the specification. *)
Definition filled_form : TLGState :=
  {| selections := mkSelections [] None None None;
     resolvedIsOpen := false;
     isSubmitting := true;
     availableGroups := [];
     availableTypes :=
       [ mkDirective "bgp_route" "BGP Route";
         mkDirective "traceroute" "Traceroute";
         mkDirective "bgp_route" "BGP Route (duplicate)" ];
     directive := Some (mkDirective "bgp_route" "BGP Route");
     displayTarget := "1.1.1.1";
     queryLocation := ["loc1"];
     btnLoading := false;
     queryTarget := "1.1.1.1";
     queryGroup := "edge";
     queryType := "bgp_route";
     availVrfs := [];
     responses := {[ "router1" := mkResponse "show route" "success" ]};
     queryVrf := "";
     families := [] |}.

(** Sample stores for [stateExporter]: cell 1 is
    [{output: "ok", hops: [1, null]}] with its array in cell 2, and cell 3 is
    an object whose property [self] is the object itself. *)

(** ** Further relations between states *)

(** The two states agree on everything [formReady] looks at: the flag, and
    for each of the four inputs whether it is empty. *)
Definition same_form_inputs (s1 s2 : TLGState) : Prop :=
  isSubmitting s1 = isSubmitting s2 ∧
  (queryType s1 = "" ↔ queryType s2 = "") ∧
  (queryGroup s1 = "" ↔ queryGroup s2 = "") ∧
  (queryTarget s1 = "" ↔ queryTarget s2 = "") ∧
  (queryLocation s1 = [] ↔ queryLocation s2 = []).

(** The two states carry the same value in every field except
    [resolvedIsOpen]. *)
Definition same_but_resolvedIsOpen (s1 s2 : TLGState) : Prop :=
  selections s1 = selections s2 ∧
  isSubmitting s1 = isSubmitting s2 ∧
  availableGroups s1 = availableGroups s2 ∧
  availableTypes s1 = availableTypes s2 ∧
  directive s1 = directive s2 ∧
  displayTarget s1 = displayTarget s2 ∧
  queryLocation s1 = queryLocation s2 ∧
  btnLoading s1 = btnLoading s2 ∧
  queryTarget s1 = queryTarget s2 ∧
  queryGroup s1 = queryGroup s2 ∧
  queryType s1 = queryType s2 ∧
  availVrfs s1 = availVrfs s2 ∧
  responses s1 = responses s2 ∧
  queryVrf s1 = queryVrf s2 ∧
  families s1 = families s2.


(** ** [function Methods] and [useLGMethods] *)

Module Plugin.
Import JS.

(** hookstate keeps, with a store, the plugins attached to it, each under its
    id.  [MethodsId] is [Symbol('Methods')]; any other id belongs to another
    plugin.  [MethodsInstance] has no fields, so what is registered under an
    id carries no data and the registry is the list of attached ids. *)
Inductive plugin_id :=
| MethodsId
| OtherId (n : nat).

#[global] Instance plugin_id_eq_dec : EqDecision plugin_id.
Proof. solve_decision. Defined.

(** [Methods()], no argument: the plugin descriptor [{id: MethodsId, init}]. *)
Definition Methods_descriptor : plugin_id := MethodsId.

(** [state.attach(plugin)] with a plugin factory: the plugin is initialised
    and registered unless one with its id is attached already. *)
Definition attach_plugin (descriptor : plugin_id) (attached : list plugin_id)
    : list plugin_id :=
  if decide (descriptor ∈ attached) then attached else descriptor :: attached.

(** [inst.attach(id)] with an id: the instance registered under it, or an
    [Error] value when there is none. *)
Definition attach_id (i : plugin_id) (attached : list plugin_id)
    : exn + unit :=
  if decide (i ∈ attached) then inr ()
  else inl (ExnError "Error" "plugin is not attached").

(** The object [Methods(inst)] returns.  Each entry is a closure over the
    state handle, so it reads the state current at the time of the call. *)
Record TMethodsExtension := mkExtension {
  ext_resetForm : TLGState → TLGState;
  ext_formReady : TLGState → bool;
  ext_resolvedOpen : TLGState → TLGState;
  ext_resolvedClose : TLGState → TLGState;
  ext_getResponse : TLGState → string → outcome Hookstate.read;
  ext_stateExporter : val → world → outcome val * world;
  ext_getDirective : TLGState → string → option TDirective;
}.

(** [Methods(inst)]: [if (instance instanceof Error) throw instance]. *)
Definition Methods `{Engine} (attached : list plugin_id)
    : outcome TMethodsExtension :=
  match attach_id MethodsId attached with
  | inl instance => Throw instance
  | inr _ =>
      Ok {| ext_resetForm := MethodsInstance.resetForm;
            ext_formReady := MethodsInstance.formReady;
            ext_resolvedOpen := MethodsInstance.resolvedOpen;
            ext_resolvedClose := MethodsInstance.resolvedClose;
            ext_getResponse := MethodsInstance.getResponse;
            ext_stateExporter := Exporter.stateExporter;
            ext_getDirective := MethodsInstance.getDirective |}
  end.

Record TLGStateHandlers := mkHandlers {
  exportState : val → world → outcome val * world;
  methods : TMethodsExtension;
}.

(** [useLGMethods()]: attach the plugin, take [stateExporter] out of
    [Methods(state)] for [exportState], and spread [Methods(state)].  The
    second component is the registry after the call. *)
Definition useLGMethods `{Engine} (attached : list plugin_id)
    : outcome TLGStateHandlers * list plugin_id :=
  let attached' := attach_plugin Methods_descriptor attached in
  (first ← Methods attached';
   let exporter := ext_stateExporter first in
   spread ← Methods attached';
   Ok {| exportState := λ s, exporter s; methods := spread |},
   attached').

End Plugin.

(** A catalogue of query types with distinct ids, on an otherwise initial
    state. *)
Definition catalogue : TLGState :=
  {| selections := mkSelections [] None None None;
     resolvedIsOpen := false;
     isSubmitting := false;
     availableGroups := [];
     availableTypes :=
       [ mkDirective "bgp_route" "BGP Route";
         mkDirective "traceroute" "Traceroute";
         mkDirective "ping" "Ping" ];
     directive := None;
     displayTarget := "";
     queryLocation := [];
     btnLoading := false;
     queryTarget := "";
     queryGroup := "";
     queryType := "";
     availVrfs := [];
     responses := ∅;
     queryVrf := "";
     families := [] |}.

(** The filled form with other, still non-empty, inputs. *)
Definition other_form : TLGState :=
  {| selections := mkSelections ["loc2"] (Some "ping") None (Some "core");
     resolvedIsOpen := true;
     isSubmitting := true;
     availableGroups := ["core"];
     availableTypes := [];
     directive := None;
     displayTarget := "";
     queryLocation := ["loc2"; "loc3"];
     btnLoading := true;
     queryTarget := "2001:db8::1";
     queryGroup := "core";
     queryType := "ping";
     availVrfs := ["default"];
     responses := ∅;
     queryVrf := "default";
     families := [6%Z] |}.


(** ** Sample stores and a sample engine *)

Module Samples.
Import JS JSON.

(** The error texts of one engine: V8 as it worded them before it started
    to describe the cycle in the first one. *)
Definition sample_engine : Engine :=
  {| circular_message := λ _ _ _, "Converting circular structure to JSON";
     bigint_message := "Do not know how to serialize a BigInt";
     not_primitive_message := "Cannot convert object to primitive value";
     state_read_message := λ _, "Cannot read property 'value' of undefined";
     shadowed_read_throws := λ _, true |}.

Definition one : finite := Binary false 1 0.
Definition seven : finite := Binary false 7 0.

(** Cell 1 is [{output: "ok", hops: [1, null]}] with its array in cell 2,
    and cell 3 is an object whose property [self] is the object itself. *)
Definition sample_heap : gmap loc obj :=
  {[ 1%positive := OObject [("output", VString "ok");
                            ("hops", VRef 2%positive)];
     2%positive := OArray [VNumber (Finite one); VNull];
     3%positive := OObject [("self", VRef 3%positive)] ]}.

Definition sample_world : world := mkWorld sample_heap [].

Definition sample_tree : json :=
  JObject [("output", JString "ok");
           ("hops", JArray [JNumber (numeral_of one); JNull])].

(** A cycle that is not a self-reference: cell 1 is [{next: <cell 2>}],
    cell 2 is [[<cell 1>]], and cell 3 is [{data: <cell 1>, n: 7}]. *)
Definition cycle_heap : gmap loc obj :=
  {[ 1%positive := OObject [("next", VRef 2%positive)];
     2%positive := OArray [VRef 1%positive];
     3%positive := OObject [("data", VRef 1%positive);
                            ("n", VNumber (Finite seven))] ]}.

Definition cycle_world : world := mkWorld cycle_heap ["earlier message"].

(** Data that is not plain: cell 1 is
    [{a: undefined, b: NaN, c: [undefined, 1, -0], d: function, e: Symbol()}],
    with its array in cell 2 and its function in cell 3. *)
Definition lossy_heap : gmap loc obj :=
  {[ 1%positive := OObject [("a", VUndefined); ("b", VNumber NaN);
                            ("c", VRef 2%positive); ("d", VRef 3%positive);
                            ("e", VSymbol "")];
     2%positive := OArray [VUndefined; VNumber (Finite one);
                           VNumber (Finite (Zero true))];
     3%positive := OFunction ]}.

Definition lossy_world : world := mkWorld lossy_heap [].

Definition lossy_tree : json :=
  JObject [("b", JNull);
           ("c", JArray [JNull; JNumber (numeral_of one); JNumber NumZero])].

(** Cell 1 is [{toJSON() { throw Object.create(null) }}]. *)
Definition hostile_heap : gmap loc obj :=
  {[ 1%positive := OHooked (Throws (ExnOther ThrownBare)) [] ]}.

Definition hostile_world : world := mkWorld hostile_heap [].

End Samples.


(** * Properties of the accessors *)

Section Accessors.
Import JS MethodsInstance.
Context `{engine : Engine}.

Lemma all_true (iter : list bool) :
  Util.all iter = true ↔ Forall (λ i, i = true) iter.
Proof.
  induction iter as [|i rest IH]; simpl.
  - split; [constructor | reflexivity].
  - destruct i; simpl.
    + rewrite IH. split; [by constructor | by inversion 1].
    + split; [discriminate | by inversion 1].
Qed.

(** C1. [formReady()] answers true exactly when [isSubmitting] is true,
    [queryType], [queryGroup] and [queryTarget] are non-empty strings and
    [queryLocation] is a non-empty list; in every other combination of these
    fields it answers false. *)
Theorem formReady_iff (state : TLGState) :
  let ready :=
    isSubmitting state = true ∧
    queryType state ≠ "" ∧
    queryGroup state ≠ "" ∧
    queryTarget state ≠ "" ∧
    queryLocation state ≠ [] in
  (formReady state = true ↔ ready) ∧ (formReady state = false ↔ ¬ ready).
Proof.
  cbv zeta.
  assert (Hiff : formReady state = true ↔
    isSubmitting state = true ∧ queryType state ≠ "" ∧
    queryGroup state ≠ "" ∧ queryTarget state ≠ "" ∧
    queryLocation state ≠ []).
  { unfold formReady. rewrite andb_true_iff, all_true.
    rewrite !Forall_cons, !bool_decide_eq_true.
    assert (length (queryLocation state) ≠ 0 ↔ queryLocation state ≠ [])
      as -> by (by destruct (queryLocation state)).
    pose proof (Forall_nil_2 (λ i : bool, i = true)). tauto. }
  split; [exact Hiff|].
  rewrite <- Hiff. destruct (formReady state).
  - split; [discriminate | intros Hn; by destruct Hn].
  - split; [discriminate | reflexivity].
Qed.

(** Names found on [Object.prototype] are not members of the handle. *)
Lemma inherited_not_member (d : string) :
  d ∈ Hookstate.Object_prototype → d ∉ Hookstate.State_members.
Proof.
  revert d. apply Forall_forall.
  refine (bool_decide_unpack
            (Forall (λ d, d ∉ Hookstate.State_members)
                    Hookstate.Object_prototype) _).
  by vm_compute.
Qed.


(** C2 does not hold of [getResponse] as written.  The [in] test also finds
    the names every object inherits, so for such a name that is not a key
    the read through the handle is attempted and throws; and under a key
    that is the name of one of the handle's own methods the read returns
    [undefined], not the stored response. *)
Theorem getResponse_inherited_name (state : TLGState) :
  (∀ d, d ∈ Hookstate.Object_prototype → d ∉ dom (responses state) →
        getResponse state d
          = Throw (ExnError "TypeError" (state_read_message d))) ∧
  (∀ d r,
     d ∈ ["get"; "set"; "merge"; "nested"; "batch"; "attach"; "destroy"] →
     responses state !! d = Some r →
     getResponse state d = Ok Hookstate.Undefined).
Proof.
  split.
  - intros d Hproto Hkey. unfold getResponse, Hookstate.has.
    rewrite (bool_decide_eq_true_2 _ Hproto), orb_true_r.
    unfold Hookstate.nested_value.
    rewrite (bool_decide_eq_false_2 _ (inherited_not_member d Hproto)).
    apply not_elem_of_dom in Hkey. rewrite Hkey.
    by rewrite (bool_decide_eq_true_2 _ Hproto).
  - intros d r Hd Hr. unfold getResponse, Hookstate.has.
    rewrite bool_decide_eq_true_2 by (apply elem_of_dom; eauto). simpl.
    unfold Hookstate.nested_value.
    repeat (apply elem_of_cons in Hd as [->|Hd]; [reflexivity|]).
    by apply elem_of_nil in Hd.
Qed.

Lemma filter_first {A} (P : A → Prop) `{!∀ x, Decision (P x)} (l : list A) :
  match filter P l with
  | [] => ∀ x, x ∈ l → ¬ P x
  | d :: _ => ∃ before after,
      l = (before ++ d :: after)%list ∧ P d ∧ ∀ x, x ∈ before → ¬ P x
  end.
Proof.
  induction l as [|a l IH].
  - simpl. by intros x ?%elem_of_nil.
  - rewrite filter_cons. case_decide as Ha.
    + exists [], l. split_and!; [done..|]. by intros x ?%elem_of_nil.
    + destruct (filter P l) as [|d rest].
      * intros x [->|?]%elem_of_cons; auto.
      * destruct IH as (before & after & -> & Hd & Hbefore).
        exists (a :: before), after. split_and!; [done..|].
        intros x [->|?]%elem_of_cons; auto.
Qed.

(** C4. [getDirective(name)] answers not-found when no entry of
    [availableTypes] has [name] as its id; when one or more entries match it
    answers the first of them in the order of the sequence. *)
Theorem getDirective_first (state : TLGState) (name : string) :
  ((∀ t, t ∈ availableTypes state → id t ≠ name) →
     getDirective state name = None) ∧
  ((∃ t, t ∈ availableTypes state ∧ id t = name) →
     ∃ before d after,
       availableTypes state = (before ++ d :: after)%list ∧
       id d = name ∧
       (∀ t, t ∈ before → id t ≠ name) ∧
       getDirective state name = Some d).
Proof.
  unfold getDirective.
  pose proof (filter_first (λ t, id t = name) (availableTypes state)) as H.
  destruct (filter _ (availableTypes state)) as [|d rest] eqn:Hf.
  - split; [done|]. intros (t & Ht & Hid). by destruct (H t Ht).
  - destruct H as (before & after & Heq & Hd & Hbefore). split.
    + intros Hnone. destruct (Hnone d); [|done].
      rewrite Heq. apply elem_of_app. right. by left.
    + intros _. by exists before, d, after.
Qed.

Lemma getDirective_first_witness :
  getDirective LGState "bgp_route" = None ∧
  ∃ before d after,
    availableTypes filled_form = (before ++ d :: after)%list ∧
    id d = "bgp_route" ∧
    (∀ t, t ∈ before → id t ≠ "bgp_route") ∧
    getDirective filled_form "bgp_route" = Some d.
Proof.
  split.
  - destruct (getDirective_first LGState "bgp_route") as (Hnone & _).
    apply Hnone. simpl. by intros t ?%elem_of_nil.
  - destruct (getDirective_first filled_form "bgp_route") as (_ & Hsome).
    apply Hsome.
    exists (mkDirective "bgp_route" "BGP Route"). split; [by left | done].
Defined.

(** C5. [resetForm()] leaves [directive] as it was, and puts every other
    field back to the value it has in the initial state. *)
Theorem resetForm_keeps_directive (state : TLGState) :
  directive (resetForm state) = directive state ∧
  resetForm state =
    {| selections := selections LGState;
       resolvedIsOpen := resolvedIsOpen LGState;
       isSubmitting := isSubmitting LGState;
       availableGroups := availableGroups LGState;
       availableTypes := availableTypes LGState;
       directive := directive state;
       displayTarget := displayTarget LGState;
       queryLocation := queryLocation LGState;
       btnLoading := btnLoading LGState;
       queryTarget := queryTarget LGState;
       queryGroup := queryGroup LGState;
       queryType := queryType LGState;
       availVrfs := availVrfs LGState;
       responses := responses LGState;
       queryVrf := queryVrf LGState;
       families := families LGState |}.
Proof. split; reflexivity. Qed.

(** C6. Whatever the state was, [formReady()] right after [resetForm()]
    answers false. *)
Theorem formReady_after_resetForm (state : TLGState) :
  formReady (resetForm state) = false.
Proof. reflexivity. Qed.

(** C7 does not hold of the code for every device.  With the inherited name
    ["toString"] the lookup throws in the initial state, and again after
    [resetForm()]; and a response written under the key ["set"] is not the
    one handed back. *)
Theorem getResponse_scenario_inherited (state : TLGState)
    (r : TQueryResponse) :
  getResponse LGState "toString"
    = Throw (ExnError "TypeError" (state_read_message "toString")) ∧
  getResponse (Hookstate.set_response "set" r state) "set"
    = Ok Hookstate.Undefined ∧
  getResponse (resetForm state) "toString"
    = Throw (ExnError "TypeError" (state_read_message "toString")).
Proof.
  assert (Hempty : ∀ s, responses s = ∅ →
    getResponse s "toString"
      = Throw (ExnError "TypeError" (state_read_message "toString"))).
  { intros s Hs. unfold getResponse, Hookstate.has, Hookstate.nested_value.
    rewrite Hs, dom_empty_L, lookup_empty.
    by rewrite bool_decide_eq_false_2 by apply not_elem_of_empty. }
  split; [by apply Hempty|]. split; [|by apply Hempty].
  unfold getResponse, Hookstate.has. simpl.
  rewrite bool_decide_eq_true_2; [done|].
  rewrite dom_insert_L. by apply elem_of_union_l, elem_of_singleton.
Qed.

(** The end-to-end scenario of the readiness check: the filled form is ready,
    and no longer is once its target is emptied. *)
Example formReady_filled_form : formReady filled_form = true.
Proof. reflexivity. Qed.

Example formReady_emptied_target :
  formReady
    (Hookstate.merge
       {| Hookstate.p_selections := None; Hookstate.p_resolvedIsOpen := None;
          Hookstate.p_isSubmitting := None;
          Hookstate.p_availableGroups := None;
          Hookstate.p_availableTypes := None; Hookstate.p_directive := None;
          Hookstate.p_displayTarget := None;
          Hookstate.p_queryLocation := None; Hookstate.p_btnLoading := None;
          Hookstate.p_queryTarget := Some "";
          Hookstate.p_queryGroup := None; Hookstate.p_queryType := None;
          Hookstate.p_availVrfs := None; Hookstate.p_responses := None;
          Hookstate.p_queryVrf := None; Hookstate.p_families := None |}
       filled_form) = false.
Proof. reflexivity. Qed.

(** C9. [formReady()] does not read [queryVrf]: two states that differ only
    in that field get the same answer. *)
Theorem formReady_ignores_queryVrf (s1 s2 : TLGState) :
  same_but_queryVrf s1 s2 → formReady s1 = formReady s2.
Proof.
  intros (_ & _ & Hsub & _ & _ & _ & _ & Hloc & _ & Htgt & Hgrp & Hty & _).
  unfold formReady. by rewrite Hsub, Hloc, Htgt, Hgrp, Hty.
Qed.

Lemma formReady_ignores_queryVrf_witness :
  formReady filled_form = formReady (set_queryVrf "default" filled_form).
Proof.
  apply (formReady_ignores_queryVrf filled_form
           (set_queryVrf "default" filled_form)).
  repeat split.
Defined.

End Accessors.

(** * The JSON round trip of [stateExporter] *)

Section RoundTrip.
Import JS JSON Plain Exporter.
Context `{engine : Engine}.

(** Induction over JSON trees, with the hypothesis for every child. *)
Lemma json_nested_ind (P : json → Prop) :
  P JNull → (∀ b, P (JBool b)) → (∀ z, P (JNumber z)) →
  (∀ s, P (JString s)) →
  (∀ items, Forall P items → P (JArray items)) →
  (∀ members, Forall (λ kt, P kt.2) members → P (JObject members)) →
  ∀ j, P j.
Proof.
  intros Hnull Hbool Hnum Hstr Harr Hobj. fix IH 1.
  intros [ | b | z | s | items | members ].
  - exact Hnull.
  - apply Hbool.
  - apply Hnum.
  - apply Hstr.
  - apply Harr.
    induction items as [|t items IHitems]; constructor;
      [apply IH | exact IHitems].
  - apply Hobj.
    induction members as [|[k t] members IHmembers]; constructor;
      [apply IH | exact IHmembers].
Qed.

Lemma height_item t items :
  t ∈ items → (height t < height (JArray items))%nat.
Proof.
  simpl. induction 1 as [t items | t t' items _ IH]; simpl; lia.
Qed.

Lemma height_member kt members :
  kt ∈ members → (height kt.2 < height (JObject members))%nat.
Proof.
  simpl. induction 1 as [kt members | kt kt' members _ IH]; simpl; lia.
Qed.

(** Two facts about [Forall2] with a hypothesis for every right element. *)
Lemma Forall2_unique_r {A B} (R : A → B → Prop) (l : list A) (k1 k2 : list B) :
  Forall (λ b, ∀ a b', R a b → R a b' → b = b') k1 →
  Forall2 R l k1 → Forall2 R l k2 → k1 = k2.
Proof.
  intros Huniq H1. revert k2 Huniq.
  induction H1 as [|a b l k1 Hab _ IH]; intros k2 Huniq H2.
  - by inversion H2.
  - inversion H2 as [|a' b' l' k2' Hab' H2']; subst.
    apply Forall_cons in Huniq as [Hb Hk1].
    f_equal; [by eapply Hb | by apply IH].
Qed.

Lemma Forall2_impl_r {A B} (R R' : A → B → Prop) (l : list A) (k : list B) :
  Forall (λ b, ∀ a, R a b → R' a b) k → Forall2 R l k → Forall2 R' l k.
Proof.
  intros Himpl H. induction H as [|a b l k Hab _ IH]; [constructor|].
  apply Forall_cons in Himpl as [Hb Hk]. constructor; auto.
Qed.

(** A value denotes at most one tree. *)
Lemma denotes_functional h t1 :
  ∀ v t2, denotes h v t1 → denotes h v t2 → t1 = t2.
Proof.
  induction t1 as [ | b | z | s | ts IH | ms IH ] using json_nested_ind;
    intros v t2 H1 H2.
  - inversion H1; subst. by inversion H2.
  - inversion H1; subst. by inversion H2.
  - inversion H1; subst. by inversion H2.
  - inversion H1; subst. by inversion H2.
  - inversion H1 as [ | | | | l items ts' Hl Hitems | ]; subst.
    inversion H2 as [ | | | | l2 items2 ts2 Hl2 Hitems2
                    | l2 props2 ms2 Hl2 Hprops2 ]; subst; simplify_eq.
    f_equal. eapply Forall2_unique_r; [|done..].
    eapply Forall_impl; [exact IH|]. simpl. eauto.
  - inversion H1 as [ | | | | | l props ms' Hl Hprops ]; subst.
    inversion H2 as [ | | | | l2 items2 ts2 Hl2 Hitems2
                    | l2 props2 ms2 Hl2 Hprops2 ]; subst; simplify_eq.
    f_equal. eapply Forall2_unique_r; [|done..].
    eapply Forall_impl; [exact IH|]. simpl.
    intros [k t] IHt [k1 v1] [k2 t2] [Hk Hv] [Hk2 Hv2]; simpl in *.
    f_equal; [congruence | by eapply IHt].
Qed.

(** Plain data stays plain, with the same content, in a larger heap. *)
Lemma denotes_mono h h' t :
  h ⊆ h' → ∀ v, denotes h v t → denotes h' v t.
Proof.
  intros Hsub.
  induction t as [ | b | z | s | ts IH | ms IH ] using json_nested_ind;
    intros v H.
  - inversion H; constructor.
  - inversion H; constructor.
  - inversion H; constructor.
  - inversion H; constructor.
  - inversion H as [ | | | | l items ts' Hl Hitems | ]; subst.
    eapply den_array; [by eapply lookup_weaken|].
    by eapply Forall2_impl_r.
  - inversion H as [ | | | | | l props ms' Hl Hprops ]; subst.
    eapply den_object; [by eapply lookup_weaken|].
    eapply Forall2_impl_r; [|done].
    eapply Forall_impl; [exact IH|]. simpl.
    intros kt IHt kv [Hk Hv]. auto.
Qed.

(** A stack of distinct cells of the heap is no longer than the heap. *)
Lemma stack_bound (h : gmap loc obj) (stack : list loc) :
  NoDup stack → (∀ a, a ∈ stack → is_Some (h !! a)) →
  (length stack ≤ size h)%nat.
Proof.
  intros Hnodup Hin.
  rewrite <- (size_dom (D := gset loc) h).
  apply (submseteq_length stack (elements (dom h))).
  apply NoDup_submseteq; [done|].
  intros a Ha. apply elem_of_elements, elem_of_dom. auto.
Qed.

Lemma each_stuck {A B} (f : A → outcome B) (l : list A) w :
  each f l = Stuck w → ∃ a, a ∈ l ∧ f a = Stuck w.
Proof.
  induction l as [|a l IH]; [done|]. simpl.
  destruct (f a) as [b|e|w'] eqn:Ha; simpl; [|done|].
  - destruct (each f l) as [bs|e|w'] eqn:Hl; simpl; try done.
    intros [= ->]. destruct IH as (a' & ? & ?); [done|].
    exists a'. split; [by right | done].
  - intros [= ->]. exists a. split; [by left | done].
Qed.

Lemma stack_ok_nil h : stack_ok h (S (size h)) [].
Proof.
  split; [constructor|]. split; [by intros a ?%elem_of_nil | simpl; lia].
Qed.

Lemma stack_ok_push h fuel stack l :
  stack_ok h fuel stack → l ∉ stack → is_Some (h !! l) →
  ∃ fuel', fuel = S fuel' ∧ stack_ok h fuel' (l :: stack).
Proof.
  intros (Hnodup & Hin & Hfuel) Hl Hsome.
  assert (Hpush : NoDup (l :: stack)) by by constructor.
  assert (Hin' : ∀ a, a ∈ l :: stack → is_Some (h !! a)).
  { intros a [->|?]%elem_of_cons; auto. }
  pose proof (stack_bound h (l :: stack) Hpush Hin') as Hbound.
  simpl in Hbound. destruct fuel as [|fuel']; [lia|].
  exists fuel'. split; [done|]. split; [done|]. split; [done|]. simpl. lia.
Qed.

Lemma each_Forall2 {A B} (f : A → outcome B) (l : list A) (k : list B) :
  Forall2 (λ a b, f a = Ok b) l k → each f l = Ok k.
Proof.
  induction 1 as [|a b l k Hab _ IH]; [done|].
  simpl. rewrite Hab. simpl. rewrite IH. done.
Qed.

Lemma shown_items (ts : list json) : default JNull <$> (Some <$> ts) = ts.
Proof. induction ts as [|t ts IH]; [done|]. simpl. by f_equal. Qed.

Lemma kept_members (ms : list (string * json)) :
  omap (λ kt : string * option json, pair kt.1 <$> kt.2)
       ((λ kt : string * json, (kt.1, Some kt.2)) <$> ms) = ms.
Proof.
  induction ms as [|[k t] ms IH]; [done|]. simpl. by f_equal.
Qed.

(** Serializing plain data gives the tree it denotes: the walk meets no cell
    of the stack again and the budget is enough. *)
(** Plain data has no [toJSON] method. *)
Lemma toJSON_plain h v t : denotes h v t → toJSON h v = Ok v.
Proof.
  intros Hv. destruct Hv as [ | | | | l items ts Hl _ | l props ms Hl _ ];
    simpl; try done; by rewrite Hl.
Qed.

(** Serializing plain data gives the tree it denotes: the walk meets no cell
    of the stack again and the budget is enough. *)
Lemma serialize_plain h t :
  ∀ v fuel stack,
    denotes h v t → stack_ok h fuel stack →
    (∀ a, a ∈ stack →
       ∃ ta, denotes h (VRef a) ta ∧ (height t < height ta)%nat) →
    serialize fuel h stack v = Ok (Some t).
Proof.
  induction t as [ | b | z | s | ts IH | ms IH ] using json_nested_ind;
    intros v fuel stack Hv Hstack Habove.
  - inversion Hv; subst. by destruct fuel.
  - inversion Hv; subst. by destruct fuel.
  - inversion Hv; subst. by destruct fuel.
  - inversion Hv; subst. by destruct fuel.
  - inversion Hv as [ | | | | l items ts' Hl Hitems | ]; subst.
    assert (Hfresh : l ∉ stack).
    { intros (ta & Hta & Hlt)%Habove.
      rewrite (denotes_functional _ _ _ _ Hta Hv) in Hlt. lia. }
    destruct (stack_ok_push h fuel stack l) as (fuel' & -> & Hstack');
      [done.. | by eexists |].
    simpl. rewrite Hl. simpl. rewrite Hl, decide_False by done.
    rewrite (each_Forall2 _ items (Some <$> ts)).
    { simpl. by rewrite shown_items. }
    apply Forall2_fmap_r. eapply Forall2_impl_r; [|exact Hitems].
    apply Forall_forall. intros t Ht v Hvt.
    rewrite Forall_forall in IH. apply IH; [done..|].
    intros a [->|Ha]%elem_of_cons.
    + exists (JArray ts). split; [done | by apply height_item].
    + destruct (Habove a Ha) as (ta & Hta & Hlt).
      exists ta. split; [done|]. pose proof (height_item t ts Ht). lia.
  - inversion Hv as [ | | | | | l props ms' Hl Hprops ]; subst.
    assert (Hfresh : l ∉ stack).
    { intros (ta & Hta & Hlt)%Habove.
      rewrite (denotes_functional _ _ _ _ Hta Hv) in Hlt. lia. }
    destruct (stack_ok_push h fuel stack l) as (fuel' & -> & Hstack');
      [done.. | by eexists |].
    simpl. rewrite Hl. simpl. rewrite Hl, decide_False by done.
    rewrite (each_Forall2 _ props ((λ kt, (kt.1, Some kt.2)) <$> ms)).
    { simpl. by rewrite kept_members. }
    apply Forall2_fmap_r. eapply Forall2_impl_r; [|exact Hprops].
    apply Forall_forall. intros [k t] Ht [k' v] [Hk Hvt]; simpl in *.
    rewrite Forall_forall in IH. rewrite (IH (k, t) Ht v fuel' (l :: stack)).
    + simpl. by rewrite Hk.
    + done.
    + done.
    + intros a [->|Ha]%elem_of_cons.
      * exists (JObject ms). split; [done|]. by apply (height_member (k, t)).
      * destruct (Habove a Ha) as (ta & Hta & Hlt).
        exists ta. split; [done|].
        pose proof (height_member (k, t) ms Ht). simpl in *. lia.
Qed.

Lemma stringify_plain h v t :
  denotes h v t → stringify h v = Ok (Some t).
Proof.
  intros Hv. apply serialize_plain; [done | apply stack_ok_nil |].
  by intros a ?%elem_of_nil.
Qed.

(** The model never gets stuck on a well-formed store: the budget of
    [stringify] is never exhausted, and in a closed heap no reference
    dangles. *)
Lemma bind_stuck {A B} (m : outcome A) (f : A → outcome B) w :
  (∀ a, f a ≠ Stuck w) → m ≫= f = Stuck w → m = Stuck w.
Proof.
  destruct m as [a|e|w']; simpl.
  - intros Hf ?. by destruct (Hf a).
  - intros _ [=].
  - by intros _ [= ->].
Qed.

Lemma toJSON_ok h v v' :
  toJSON h v = Ok v' →
  v' = v ∨ ∃ l ps, v = VRef l ∧ h !! l = Some (OHooked (Returns v') ps).
Proof.
  destruct v as [ | | | | | | | l]; simpl; try (intros [= <-]; by left).
  destruct (h !! l) as [[items|props| |[w|e] props]|] eqn:Hl;
    intros [= <-]; eauto.
Qed.

Lemma toJSON_not_stuck h v w : toJSON h v ≠ Stuck w.
Proof.
  destruct v as [ | | | | | | | l]; simpl; try done.
  by destruct (h !! l) as [[items|props| |[w'|e] props]|].
Qed.

Lemma toJSON_closed h v v' :
  closed h → val_ok h v → toJSON h v = Ok v' → val_ok h v'.
Proof.
  intros Hclosed Hv [->|(l & ps & -> & Hl)]%toJSON_ok; [done|].
  pose proof (Hclosed l _ Hl) as Hobj. unfold obj_ok in Hobj. simpl in Hobj.
  by apply Forall_cons in Hobj as [? _].
Qed.

Lemma closed_stored h l o v :
  closed h → h !! l = Some o → v ∈ stored o → val_ok h v.
Proof.
  intros Hclosed Hl Hv. pose proof (Hclosed l o Hl) as Hobj.
  unfold obj_ok in Hobj. rewrite Forall_forall in Hobj. by apply Hobj.
Qed.

Lemma own_props_stored o k v : (k, v) ∈ own_props o → v ∈ stored o.
Proof.
  destruct o as [items|props| |[w|e] props]; simpl;
    try (by intros ?%elem_of_nil); intros Hkv.
  - by apply (list_elem_of_fmap_2 snd _ (k, v)).
  - right. by apply (list_elem_of_fmap_2 snd _ (k, v)).
  - by apply (list_elem_of_fmap_2 snd _ (k, v)).
Qed.

Lemma serialize_stuck h fuel :
  ∀ stack v w,
    stack_ok h fuel stack → serialize fuel h stack v = Stuck w →
    w ≠ OutOfFuel ∧ ¬ (closed h ∧ val_ok h v).
Proof.
  induction fuel as [|fuel IH]; intros stack v w Hstack Hw.
  - destruct Hstack as (Hnodup & Hin & Hfuel).
    pose proof (stack_bound h stack Hnodup Hin). simpl in Hfuel. lia.
  - simpl in Hw.
    destruct (toJSON h v) as [value| |w'] eqn:Hvalue;
      [|done|by destruct (toJSON_not_stuck h v w')].
    simpl in Hw.
    assert (Hvalue_ok : closed h ∧ val_ok h v → val_ok h value).
    { intros [? ?]. by eapply toJSON_closed. }
    destruct value as [ | | | [] | | | | l]; try done.
    destruct (h !! l) as [cell|] eqn:Hcell; cycle 1.
    { injection Hw as <-. split; [done|]. intros Hok.
      destruct (Hvalue_ok Hok) as [o Ho]. congruence. }
    assert (Hchildren : ∀ child w,
      child ∈ stored cell → l ∉ stack →
      serialize fuel h (l :: stack) child = Stuck w →
      w ≠ OutOfFuel ∧ ¬ (closed h ∧ val_ok h v)).
    { intros child w0 Hchild Hl Hw0.
      destruct (stack_ok_push h (S fuel) stack l)
        as (fuel' & [= <-] & Hpush); [done.. | by eexists |].
      destruct (IH _ _ _ Hpush Hw0) as [Hfuel Hopen]. split; [done|].
      intros [Hclosed Hv]. apply Hopen. split; [done|].
      by eapply closed_stored. }
    destruct cell as [items|props| |hook props]; [| |done|];
      (case_decide as Hl; [done|]).
    + apply bind_stuck in Hw; [|done].
      apply each_stuck in Hw as (child & Hchild & Hw). by eapply Hchildren.
    + apply bind_stuck in Hw; [|done].
      apply each_stuck in Hw as ([k child] & Hchild & Hw). simpl in Hw.
      apply bind_stuck in Hw; [|done].
      eapply Hchildren; [|done..]. by eapply (own_props_stored (OObject _)).
    + apply bind_stuck in Hw; [|done].
      apply each_stuck in Hw as ([k child] & Hchild & Hw). simpl in Hw.
      apply bind_stuck in Hw; [|done].
      eapply Hchildren; [|done..].
      by eapply (own_props_stored (OHooked _ _)).
Qed.

Lemma stringify_fuel h v : stringify h v ≠ Stuck OutOfFuel.
Proof.
  intros Hw. by destruct (serialize_stuck _ _ _ _ _ (stack_ok_nil h) Hw).
Qed.

Lemma stringify_closed h v w :
  closed h → val_ok h v → stringify h v ≠ Stuck w.
Proof.
  intros Hclosed Hv Hw.
  destruct (serialize_stuck _ _ _ _ _ (stack_ok_nil h) Hw) as [_ Hopen].
  by apply Hopen.
Qed.

(** What [parse] builds lives in new cells only, and denotes the text. *)
Lemma difference_mono (m1 m1' m2 m2' : gmap loc obj) :
  m1 ⊆ m1' → m2' ⊆ m2 → m1 ∖ m2 ⊆ m1' ∖ m2'.
Proof.
  intros H1 H2. apply map_subseteq_spec. intros i x.
  rewrite !lookup_difference_Some. intros [Hx Hnone]. split.
  - by eapply lookup_weaken.
  - by eapply lookup_weaken_None.
Qed.

Lemma thread_fresh {A B} (f : A → gmap loc obj → B * gmap loc obj)
    (R : gmap loc obj → B → A → Prop) (l : list A) :
  (∀ h h' b a, h ⊆ h' → R h b a → R h' b a) →
  Forall (λ a, ∀ h, h ⊆ (f a h).2 ∧ R ((f a h).2 ∖ h) (f a h).1 a) l →
  ∀ h, h ⊆ (thread f l h).2 ∧
       Forall2 (R ((thread f l h).2 ∖ h)) (thread f l h).1 l.
Proof.
  intros Hmono. induction 1 as [|a l Ha _ IH]; intros h; simpl.
  - split; [done | constructor].
  - specialize (Ha h). destruct (f a h) as [b h1]. simpl in Ha.
    specialize (IH h1). destruct (thread f l h1) as [bs h2]. simpl in *.
    destruct Ha as [Hh1 Hb], IH as [Hh2 Hbs]. split; [by etrans|].
    constructor.
    + eapply Hmono; [|exact Hb]. by apply difference_mono.
    + eapply Forall2_impl; [exact Hbs|]. intros b' a'.
      apply Hmono. by apply difference_mono.
Qed.

Lemma alloc_fresh (h h1 : gmap loc obj) (o : obj) :
  h ⊆ h1 →
  let l := fresh (dom h1) in
  h ⊆ <[l := o]> h1 ∧ (<[l := o]> h1 ∖ h) !! l = Some o ∧
  h1 ∖ h ⊆ <[l := o]> h1 ∖ h.
Proof.
  intros Hsub l.
  assert (Hl : h1 !! l = None) by apply not_elem_of_dom, is_fresh.
  assert (Hgrow : h1 ⊆ <[l := o]> h1) by by apply insert_subseteq.
  split; [by etrans|]. split.
  - apply lookup_difference_Some. split; [apply lookup_insert_eq|].
    by eapply lookup_weaken_None.
  - by apply difference_mono.
Qed.

Lemma build_fresh j :
  ∀ h, h ⊆ (build j h).2 ∧ denotes ((build j h).2 ∖ h) (build j h).1 j.
Proof.
  induction j as [ | b | z | s | ts IH | ms IH ] using json_nested_ind;
    intros h; simpl.
  - split; [done | constructor].
  - split; [done | constructor].
  - split; [done|].
    assert (numeral_of (double_of z) = z) as Hz by by destruct z.
    rewrite <- Hz at 2. constructor.
  - split; [done | constructor].
  - destruct (thread_fresh build (λ h v t, denotes h v t) ts
                (λ h h' v t Hsub, denotes_mono h h' t Hsub v) IH h)
      as [Hsub Hitems].
    destruct (thread build ts h) as [vs h1]. simpl in *.
    destruct (alloc_fresh h h1 (OArray vs) Hsub) as (Hgrow & Hl & Hdiff).
    split; [done|]. eapply den_array; [exact Hl|].
    eapply Forall2_impl; [exact Hitems|]. intros v t.
    by apply denotes_mono.
  - destruct (thread_fresh
                (λ kj h, let '(v, h1) := build kj.2 h in ((kj.1, v), h1))
                (λ h (kv : string * val) (kt : string * json),
                   kv.1 = kt.1 ∧ denotes h kv.2 kt.2) ms) with (h := h)
      as [Hsub Hprops].
    { intros h0 h' kv kt Hh [Hk Hv]. split; [done|].
      by eapply denotes_mono. }
    { eapply Forall_impl; [exact IH|]. simpl. intros [k t] IHt h0.
      specialize (IHt h0). simpl in *.
      destruct (build t h0) as [v h1]. simpl in *. by destruct IHt. }
    destruct (thread _ ms h) as [ps h1]. simpl in *.
    destruct (alloc_fresh h h1 (OObject ps) Hsub) as (Hgrow & Hl & Hdiff).
    split; [done|]. eapply den_object; [exact Hl|].
    eapply Forall2_impl; [exact Hprops|]. intros kv kt [Hk Hv].
    split; [done|]. by eapply denotes_mono.
Qed.

(** A structure that contains itself cannot be serialized. *)
Lemma each_ok_inv {A B} (f : A → outcome B) (l : list A) (bs : list B) :
  each f l = Ok bs → ∀ a, a ∈ l → ∃ b, f a = Ok b.
Proof.
  revert bs. induction l as [|a l IH]; intros bs Hl a' Ha'.
  - by apply elem_of_nil in Ha'.
  - simpl in Hl. destruct (f a) as [b| |] eqn:Hfa; try done. simpl in Hl.
    destruct (each f l) as [bs'| |] eqn:Hfl; try done.
    apply elem_of_cons in Ha' as [->|Ha']; [by eauto|].
    by eapply IH.
Qed.

Lemma each_throw {A B} (f : A → outcome B) (l : list A) e :
  each f l = Throw e → ∃ a, a ∈ l ∧ f a = Throw e.
Proof.
  induction l as [|a l IH]; [done|]. simpl.
  destruct (f a) as [b|e'|w'] eqn:Ha; simpl; [| |done].
  - destruct (each f l) as [bs|e'|w'] eqn:Hl; simpl; try done.
    intros [= ->]. destruct IH as (a' & ? & ?); [done|].
    exists a'. split; [by right | done].
  - intros [= ->]. exists a. split; [by left | done].
Qed.

Lemma bind_throw {A B} (m : outcome A) (f : A → outcome B) e :
  (∀ a, f a ≠ Throw e) → m ≫= f = Throw e → m = Throw e.
Proof.
  destruct m as [a|e'|w']; simpl.
  - intros Hf ?. by destruct (Hf a).
  - by intros _ [= ->].
  - intros _ [=].
Qed.

(** The only exception [stringify] raises is the one for a cycle. *)

Lemma parse_stringify_plain h v t :
  denotes h v t →
  (text ← stringify h v; parse text h) = Ok (build t h).
Proof. intros Hv. by rewrite (stringify_plain h v t Hv). Qed.

(** An [Error] thrown by the round trip is caught: its message is logged and
    the result is the [null] that [result] was initialised with. *)
Lemma stateExporter_caught (w : world) (x : val) (kind message : string) :
  (text ← stringify (heap w) x; parse text (heap w))
    = Throw (ExnError kind message) →
  stateExporter x w =
    (Ok VNull, mkWorld (heap w) (console w ++ [message])).
Proof.
  intros He. unfold stateExporter. case_decide as Hnull.
  - subst x. discriminate He.
  - by rewrite He.
Qed.

(** The copy of plain data: same content, new cells only.  The result is the
    argument itself when that is a primitive, but for [-0], which comes back
    as [0]. *)
Lemma stateExporter_plain (w : world) (x : val) (t : json) :
  denotes (heap w) x t →
  ∃ r h',
    stateExporter x w = (Ok r, mkWorld h' (console w)) ∧
    heap w ⊆ h' ∧
    denotes h' r t ∧
    denotes (h' ∖ heap w) r t ∧
    match x with
    | VRef l => ∃ l', r = VRef l' ∧ l' ≠ l ∧ heap w !! l' = None
    | VNumber (Finite (Zero true)) => r = VNumber (Finite (Zero false))
    | _ => r = x
    end.
Proof.
  destruct w as [h log]. simpl. intros Hx.
  unfold stateExporter. case_decide as Hnull.
  { subst x. inversion Hx; subst. exists VNull, h. simpl.
    split; [done|]. split; [done|]. split; [constructor|].
    split; [constructor | done]. }
  simpl. rewrite (parse_stringify_plain h x t Hx).
  destruct (build_fresh t h) as [Hsub Hfresh].
  destruct (build t h) as [r h'] eqn:Hbuild. simpl in *.
  exists r, h'. split; [done|]. split; [done|]. split.
  { eapply denotes_mono; [|exact Hfresh].
    by apply map_subseteq_difference_l. }
  split; [done|].
  destruct x as [ | | | [[[]|]| |] | | | | l];
    try (inversion Hx; subst; simpl in Hbuild; by simplify_eq).
  inversion Hx as [ | | | | l0 items ts Hl _ | l0 props ms Hl _ ]; subst;
    inversion Hfresh as [ | | | | l' items' ts' Hl' _
                        | l' props' ms' Hl' _ ]; subst;
    apply lookup_difference_Some in Hl' as [_ Hnone];
    (exists l'; split; [done|]; split; [|done]; intros ->; congruence).
Qed.

(** What a [toJSON] method throws leaves [stringify] and reaches the
    [catch]; a thrown string is logged as it is. *)
Lemma stringify_toJSON_throws h l e ps :
  h !! l = Some (OHooked (Throws e) ps) → stringify h (VRef l) = Throw e.
Proof. intros Hl. unfold stringify. simpl. by rewrite Hl. Qed.

Lemma stateExporter_thrown_string (w : world) (l : loc) (s : string) ps :
  heap w !! l = Some (OHooked (Throws (ExnOther (ThrownString s))) ps) →
  stateExporter (VRef l) w =
    (Ok VNull, mkWorld (heap w) (console w ++ [s])).
Proof.
  intros Hl. unfold stateExporter. rewrite decide_False by done.
  by rewrite (stringify_toJSON_throws _ _ _ _ Hl).
Qed.

(** C3 does not hold of [stateExporter] as written.  When the object's
    [toJSON] method throws an object without a prototype, the [catch] is
    entered with a value that is not an [Error], [String(err)] throws a
    TypeError of its own, and that exception leaves [stateExporter]: nothing
    is logged and no [null] is returned. *)
Theorem stateExporter_catch_throws (w : world) (l : loc)
    (ps : list (string * val)) :
  heap w !! l = Some (OHooked (Throws (ExnOther ThrownBare)) ps) →
  stringify (heap w) (VRef l) = Throw (ExnOther ThrownBare) ∧
  ToString ThrownBare = Throw (ExnError "TypeError" not_primitive_message) ∧
  stateExporter (VRef l) w =
    (Throw (ExnError "TypeError" not_primitive_message), w).
Proof.
  intros Hl. split; [by apply (stringify_toJSON_throws _ _ _ ps)|].
  split; [done|].
  unfold stateExporter. rewrite decide_False by done.
  by rewrite (stringify_toJSON_throws _ _ _ _ Hl).
Qed.

(** C10. [undefined] is not [null], so the round trip is attempted;
    [stringify] answers [undefined], [parse] rejects it, and the [catch]
    leaves the result [null]: the call returns [null], having logged the
    message, and throws nothing. *)
Theorem stateExporter_undefined (w : world) :
  VUndefined ≠ VNull ∧
  stringify (heap w) VUndefined = Ok None ∧
  parse None (heap w) = Throw not_json ∧
  stateExporter VUndefined w =
    (Ok VNull,
     mkWorld (heap w)
       (console w ++ ["Unexpected token u in JSON at position 0"])).
Proof. by repeat split. Qed.

End RoundTrip.

(** * The path view *)

Section PathModal.
Import JS PathView.
Context `{engine : Engine}.

(** With the accessor of [useLGMethods()] in the place of [getResponse], the
    body is the chart over the output when the accessor returns a response,
    and the loading placeholder when it returns [null]. *)
Lemma view_with_accessor (state : TLGState) (device : string) :
  (∀ r, MethodsInstance.getResponse state device
          = Ok (Hookstate.Response r) →
        view (useLGMethods_getResponse state) (useLGState "displayTarget")
             state device
          = Ok {| header := "Path to " ++ displayTarget state;
                  body := Chart (Some (inl (output r))) |}) ∧
  (MethodsInstance.getResponse state device = Ok Hookstate.Null →
   view (useLGMethods_getResponse state) (useLGState "displayTarget")
        state device
     = Ok {| header := "Path to " ++ displayTarget state;
             body := Skeleton "500px" "300px" |}).
Proof.
  unfold view, useLGMethods_getResponse. simpl.
  split; [intros r Hr | intros Hr]; by rewrite Hr.
Qed.

(** C8 does not hold of [Path] as written.  [Path] takes [getResponse] out of
    [useLGState()], the handle of the state, where that name is the handle of
    a subtree and not the accessor; applying it throws, for every state and
    every device, before either the chart or the placeholder is chosen. *)
Theorem Path_getResponse_not_a_function (state : TLGState) (device : string) :
  Path state device =
    Throw (ExnError "TypeError" "getResponse is not a function").
Proof. reflexivity. Qed.

End PathModal.

(** * More on the accessors: resets, writes and the popover flag *)

Section AccessorAlgebra.
Import JS MethodsInstance.
Context `{engine : Engine}.

Lemma formReady_true (state : TLGState) :
  formReady state = true ↔
    isSubmitting state = true ∧ queryType state ≠ "" ∧
    queryGroup state ≠ "" ∧ queryTarget state ≠ "" ∧
    queryLocation state ≠ [].
Proof.
  unfold formReady. rewrite andb_true_iff, all_true.
  rewrite !Forall_cons, !bool_decide_eq_true.
  assert (length (queryLocation state) ≠ 0 ↔ queryLocation state ≠ [])
    as -> by (by destruct (queryLocation state)).
  pose proof (Forall_nil_2 (λ i : bool, i = true)). tauto.
Qed.

(** X1. The state [resetForm()] leaves behind depends on the state before it
    through [directive] only: two resets give the same state exactly when the
    two prior states had the same [directive]. *)
Theorem resetForm_determined_by_directive (s1 s2 : TLGState) :
  resetForm s1 = resetForm s2 ↔ directive s1 = directive s2.
Proof.
  split.
  - intros Heq. by apply (f_equal directive) in Heq.
  - intros Heq. unfold resetForm, Hookstate.merge. simpl. by rewrite Heq.
Qed.

(** X2. [resetForm()] is idempotent, and it restores the initial state
    [LGState] exactly when no directive was active. *)
Theorem resetForm_idempotent (s : TLGState) :
  resetForm (resetForm s) = resetForm s ∧
  (resetForm s = LGState ↔ directive s = None).
Proof.
  split; [reflexivity|]. split.
  - intros Heq. by apply (f_equal directive) in Heq.
  - intros Heq. unfold resetForm, Hookstate.merge, LGState. simpl.
    by rewrite Heq.
Qed.

(** X3. After [resetForm()] an active directive is still in [directive], yet
    [availableTypes] is empty, so [getDirective] no longer finds it (nor any
    other name). *)
Theorem resetForm_stale_directive (s : TLGState) (d : TDirective) :
  directive s = Some d →
  directive (resetForm s) = Some d ∧
  getDirective (resetForm s) (id d) = None ∧
  ∀ n, getDirective (resetForm s) n = None.
Proof. intros Hd. split; [exact Hd|]. split; [reflexivity|]. reflexivity. Qed.

Lemma resetForm_stale_directive_witness :
  directive (resetForm filled_form)
    = Some (mkDirective "bgp_route" "BGP Route") ∧
  getDirective filled_form "bgp_route"
    = Some (mkDirective "bgp_route" "BGP Route") ∧
  getDirective (resetForm filled_form) "bgp_route" = None.
Proof.
  destruct (resetForm_stale_directive filled_form
              (mkDirective "bgp_route" "BGP Route") eq_refl)
    as (Hkept & Hgone & _).
  split; [exact Hkept|]. split; [reflexivity | exact Hgone].
Defined.

(** X4. [resolvedOpen()] and [resolvedClose()] write the popover flag and
    nothing else, so the three read accessors answer as before; calling one
    twice is calling it once, and of two calls the last one decides. *)
Theorem resolved_flag_only (s : TLGState) :
  (resolvedIsOpen (resolvedOpen s) = true ∧
   resolvedIsOpen (resolvedClose s) = false) ∧
  (same_but_resolvedIsOpen s (resolvedOpen s) ∧
   same_but_resolvedIsOpen s (resolvedClose s)) ∧
  (formReady (resolvedOpen s) = formReady s ∧
   formReady (resolvedClose s) = formReady s ∧
   (∀ d, getResponse (resolvedOpen s) d = getResponse s d) ∧
   (∀ d, getResponse (resolvedClose s) d = getResponse s d) ∧
   (∀ n, getDirective (resolvedOpen s) n = getDirective s n) ∧
   (∀ n, getDirective (resolvedClose s) n = getDirective s n)) ∧
  (resolvedOpen (resolvedOpen s) = resolvedOpen s ∧
   resolvedClose (resolvedClose s) = resolvedClose s ∧
   resolvedClose (resolvedOpen s) = resolvedClose s ∧
   resolvedOpen (resolvedClose s) = resolvedOpen s).
Proof. repeat split. Qed.

(** X5. What [getDirective(name)] returns is an entry of [availableTypes]
    whose id is [name]; and it returns not-found only when no entry has that
    id. *)
Theorem getDirective_inversion (s : TLGState) (n : string) :
  (∀ d, getDirective s n = Some d → d ∈ availableTypes s ∧ id d = n) ∧
  (getDirective s n = None → ∀ t, t ∈ availableTypes s → id t ≠ n).
Proof.
  unfold getDirective.
  pose proof (filter_first (λ t, id t = n) (availableTypes s)) as H.
  destruct (filter _ (availableTypes s)) as [|d' rest].
  - split; [discriminate|]. intros _. exact H.
  - destruct H as (before & after & Heq & Hd & _). split; [|discriminate].
    intros d [= <-]. split; [|exact Hd].
    rewrite Heq. apply elem_of_app. right. by left.
Qed.

Lemma getDirective_inversion_witness :
  (mkDirective "traceroute" "Traceroute" ∈ availableTypes filled_form ∧
   id (mkDirective "traceroute" "Traceroute") = "traceroute") ∧
  ∀ t, t ∈ availableTypes filled_form → id t ≠ "ping".
Proof.
  destruct (getDirective_inversion filled_form "traceroute") as [Hsome _].
  destruct (getDirective_inversion filled_form "ping") as [_ Hnone].
  split.
  - by apply Hsome.
  - by apply Hnone.
Defined.

(** X6. When the ids in [availableTypes] are pairwise distinct, looking an
    entry up by its own id returns that very entry. *)
Theorem getDirective_unique_ids (s : TLGState) (d : TDirective) :
  NoDup (id <$> availableTypes s) → d ∈ availableTypes s →
  getDirective s (id d) = Some d.
Proof.
  intros Hnodup Hd. unfold getDirective.
  pose proof (filter_first (λ t, id t = id d) (availableTypes s)) as H.
  destruct (filter _ (availableTypes s)) as [|d' rest].
  - by destruct (H d Hd).
  - destruct H as (before & after & Heq & Hd' & Hbefore).
    rewrite Heq in Hnodup, Hd.
    rewrite fmap_app, fmap_cons in Hnodup.
    apply NoDup_app in Hnodup as (_ & _ & Hnodup).
    apply NoDup_cons in Hnodup as [Hfresh _].
    apply elem_of_app in Hd as [Hd|Hd]; [by destruct (Hbefore d Hd)|].
    apply elem_of_cons in Hd as [->|Hd]; [done|].
    destruct Hfresh. rewrite Hd'. by apply list_elem_of_fmap_2.
Qed.

Lemma getDirective_unique_ids_witness :
  getDirective catalogue "ping" = Some (mkDirective "ping" "Ping").
Proof.
  apply (getDirective_unique_ids catalogue (mkDirective "ping" "Ping")).
  - simpl. repeat (apply NoDup_cons; split;
      [rewrite ?elem_of_cons, elem_of_nil; intros H; by decompose [or] H|]).
    apply NoDup_nil_2.
  - simpl. do 2 right. by left.
Defined.


(** X8. [formReady()] reads five things only: the flag [isSubmitting], and
    of [queryType], [queryGroup], [queryTarget] and [queryLocation] whether
    each is empty.  States that agree on these get the same answer, whatever
    else they hold. *)
Theorem formReady_reads_only (s1 s2 : TLGState) :
  same_form_inputs s1 s2 → formReady s1 = formReady s2.
Proof.
  intros (Hsub & Hty & Hgrp & Htgt & Hloc).
  apply eq_true_iff_eq. rewrite !formReady_true, Hsub. tauto.
Qed.

Lemma formReady_reads_only_witness :
  formReady filled_form = formReady other_form.
Proof.
  apply (formReady_reads_only filled_form other_form).
  unfold same_form_inputs. simpl. repeat split; discriminate.
Defined.



End AccessorAlgebra.

(** * More on [stateExporter]: what it returns, what it leaves alone *)

Section ExporterFacts.
Import JS JSON Plain Exporter Reach.
Context `{engine : Engine}.

Lemma toJSON_quiet h v : quiet h → toJSON h v = Ok v.
Proof.
  intros Hquiet. destruct v as [ | | | | | | | l]; try done. simpl.
  destruct (h !! l) as [[items|props| |hook props]|] eqn:Hl; try done.
  by destruct (Hquiet l _ Hl).
Qed.

Lemma serialize_dangling h fuel :
  ∀ stack v l, serialize fuel h stack v = Stuck (Dangling l) → h !! l = None.
Proof.
  induction fuel as [|fuel IH]; intros stack v l Hl; simpl in Hl;
    (destruct (toJSON h v) as [value| |w'] eqn:Hvalue;
      [|done|by destruct (toJSON_not_stuck h v w')]); simpl in Hl;
    (destruct value as [ | | | [] | | | | l0]; try done);
    (destruct (h !! l0) as [cell|] eqn:Hl0; [|by injection Hl as <-]).
  - destruct cell; try done; by case_decide.
  - destruct cell as [items|props| |hook props]; [| |done|];
      (case_decide; [done|]).
    + apply bind_stuck in Hl; [|done].
      apply each_stuck in Hl as (v' & _ & Hl). by eapply IH.
    + apply bind_stuck in Hl; [|done].
      apply each_stuck in Hl as ([k v'] & _ & Hl). simpl in Hl.
      apply bind_stuck in Hl; [|done]. by eapply IH.
    + apply bind_stuck in Hl; [|done].
      apply each_stuck in Hl as ([k v'] & _ & Hl). simpl in Hl.
      apply bind_stuck in Hl; [|done]. by eapply IH.
Qed.

(** Where no object has a [toJSON] method, [stringify] throws [Error]
    instances only. *)
Lemma serialize_throw_quiet h fuel :
  quiet h →
  ∀ stack v e, serialize fuel h stack v = Throw e →
               ∃ message, e = ExnError "TypeError" message.
Proof.
  intros Hquiet.
  induction fuel as [|fuel IH]; intros stack v e He; simpl in He;
    rewrite (toJSON_quiet h v Hquiet) in He; simpl in He;
    (destruct v as [ | | | [] | | | | l]; try done;
      [injection He as <-; by eexists|]);
    (destruct (h !! l) as [cell|] eqn:Hl; [|done]).
  - destruct cell; try done;
      (case_decide; [injection He as <-; by eexists | done]).
  - destruct cell as [items|props| |hook props]; [| |done|];
      (case_decide; [injection He as <-; by eexists|]).
    + apply bind_throw in He; [|done].
      apply each_throw in He as (v' & _ & He). by eapply IH.
    + apply bind_throw in He; [|done].
      apply each_throw in He as ([k v'] & _ & He). simpl in He.
      apply bind_throw in He; [|done]. by eapply IH.
    + apply bind_throw in He; [|done].
      apply each_throw in He as ([k v'] & _ & He). simpl in He.
      apply bind_throw in He; [|done]. by eapply IH.
Qed.


(** X10. In a store of inert data, where no object has a [toJSON] method
    (and, as in all of this model, no getter and no proxy), [stateExporter]
    only adds to the store: every cell that was there keeps its content.  It
    logs at most one message, and when it logs it returns [null] and has
    allocated nothing. *)
Theorem stateExporter_frame (x : val) (w : world) :
  quiet (heap w) →
  heap w ⊆ heap (stateExporter x w).2 ∧
  (console (stateExporter x w).2 = console w ∨
   ∃ m, console (stateExporter x w).2 = (console w ++ [m])%list ∧
        (stateExporter x w).1 = Ok VNull ∧
        heap (stateExporter x w).2 = heap w).
Proof.
  intros Hquiet. unfold stateExporter. case_decide; [by split; [|left]|].
  destruct (stringify (heap w) x) as [text|e|s] eqn:Hs; simpl.
  - destruct text as [j|]; simpl.
    + pose proof (build_fresh j (heap w)) as [Hsub _].
      destruct (build j (heap w)) as [r h']. simpl in *.
      by split; [|left].
    + split; [done|]. right. by eexists.
  - destruct (serialize_throw_quiet _ _ Hquiet _ _ _ Hs) as [message ->].
    split; [done|]. right. by eexists.
  - by split; [|left].
Qed.

(** X11. Whatever [stateExporter] returns is plain data, also when the
    argument was not; exporting the result once more gives a value with the
    same content and logs nothing. *)
Theorem stateExporter_result_plain (x r : val) (w w' : world) :
  stateExporter x w = (Ok r, w') →
  ∃ t, denotes (heap w') r t ∧
       ∃ r' h'',
         stateExporter r w' = (Ok r', mkWorld h'' (console w')) ∧
         denotes h'' r' t.
Proof.
  intros Hx.
  assert (Hplain : ∃ t, denotes (heap w') r t).
  { revert Hx. unfold stateExporter. case_decide.
    { intros [= <- <-]. eexists. constructor. }
    destruct (stringify (heap w) x) as [text|e|s]; simpl; [| |done].
    - destruct text as [j|]; simpl.
      + pose proof (build_fresh j (heap w)) as [_ Hj].
        destruct (build j (heap w)) as [r0 h']. simpl in *.
        intros [= <- <-]. exists j. simpl.
        eapply denotes_mono; [|exact Hj].
        by apply map_subseteq_difference_l.
      + intros [= <- <-]. eexists. constructor.
    - destruct e as [kind message|other]; simpl.
      + intros [= <- <-]. eexists. constructor.
      + destruct (ToString other); try done.
        intros [= <- <-]. eexists. constructor. }
  destruct Hplain as [t Ht]. exists t. split; [done|].
  destruct (stateExporter_plain w' r t Ht) as (r' & h'' & Hr' & _ & Hd & _).
  by exists r', h''.
Qed.

(** Cycles.  A successful serialization of a cell has serialized everything
    the cell holds, with the cell on the stack. *)
Lemma serialize_ref_ok h fuel stack l o :
  quiet h →
  serialize fuel h stack (VRef l) = Ok o →
  ∀ v, holds h l v →
       (l ∉ stack) ∧ ∃ fuel' o', serialize fuel' h (l :: stack) v = Ok o'.
Proof.
  intros Hquiet Ho v (cell & Hl & Hv).
  pose proof (Hquiet l _ Hl) as Hcell.
  destruct fuel as [|fuel']; simpl in Ho; rewrite Hl in Ho;
    (destruct cell as [items|props| |hook props];
      [| |by apply elem_of_nil in Hv|done]);
    simpl in Ho; rewrite Hl in Ho;
    (case_decide as Hstack; [done|]); try done; simpl in Ho.
  - split; [done|]. exists fuel'.
    destruct (each _ items) as [ts| |] eqn:Heach; try done.
    by eapply each_ok_inv.
  - split; [done|]. exists fuel'.
    simpl in Hv. apply list_elem_of_fmap in Hv as ([k v'] & -> & Hk).
    destruct (each _ props) as [ts| |] eqn:Heach; try done.
    destruct (each_ok_inv _ _ _ Heach _ Hk) as [b Hb]. simpl in *.
    destruct (serialize fuel' h (l :: stack) v') as [o'| |]; by eauto.
Qed.

Lemma serialize_ok_down h v l :
  quiet h →
  reaches h v l →
  ∀ fuel stack o,
    serialize fuel h stack v = Ok o →
    ∃ fuel' stack' o',
      serialize fuel' h stack' (VRef l) = Ok o' ∧
      ∀ a, a ∈ stack → a ∈ stack'.
Proof.
  intros Hquiet.
  induction 1 as [l | l0 v l Hv _ IH]; intros fuel stack o Ho.
  - by exists fuel, stack, o.
  - destruct (serialize_ref_ok _ _ _ _ _ Hquiet Ho v Hv)
      as (_ & fuel' & o' & Ho').
    destruct (IH _ _ _ Ho') as (fuel'' & stack' & o'' & Hl & Hsub).
    exists fuel'', stack', o''. split; [done|].
    intros a Ha. apply Hsub. by right.
Qed.

Lemma serialize_cyclic h v fuel stack o :
  quiet h → cyclic h v → serialize fuel h stack v ≠ Ok o.
Proof.
  intros Hquiet (l & v' & Hto & Hheld & Hback) Ho.
  destruct (serialize_ok_down h v l Hquiet Hto _ _ _ Ho)
    as (fuel1 & stack1 & o1 & Hl & _).
  destruct (serialize_ref_ok _ _ _ _ _ Hquiet Hl v' Hheld)
    as (_ & fuel2 & o2 & Ho2).
  destruct (serialize_ok_down h v' l Hquiet Hback _ _ _ Ho2)
    as (fuel3 & stack3 & o3 & Hl3 & Hsub).
  destruct (serialize_ref_ok _ _ _ _ _ Hquiet Hl3 v' Hheld) as (Hfresh & _).
  apply Hfresh, Hsub. by left.
Qed.

(** Without [toJSON] methods and BigInts, what [stringify] throws is the
    error of a cycle, and there is one. *)
Lemma serialize_throw_cyclic h fuel :
  quiet h →
  map_Forall (λ _ o, Forall (λ v', ¬ is_bigint v') (stored o)) h →
  ∀ stack v e,
    ¬ is_bigint v →
    serialize fuel h stack v = Throw e →
    (∃ stack' l', e = circular h stack' l') ∧
    ((∃ l, l ∈ stack ∧ reaches h v l) ∨ cyclic h v).
Proof.
  intros Hquiet Hsmall.
  assert (Hchild : ∀ l v stack,
    holds h l v →
    (∃ l', l' ∈ l :: stack ∧ reaches h v l') ∨ cyclic h v →
    (∃ l', l' ∈ stack ∧ reaches h (VRef l) l') ∨ cyclic h (VRef l)).
  { intros l v stack Hv [(l' & [->|Hl']%elem_of_cons & Hreach)|Hcyc].
    - right. exists l, v. split; [constructor | done].
    - left. exists l'. split; [done|]. by eapply reaches_step.
    - right. destruct Hcyc as (l' & v' & Hto & Hheld & Hback).
      exists l', v'. split; [by eapply reaches_step | done]. }
  assert (Hstored : ∀ l cell v,
    h !! l = Some cell → v ∈ stored cell → ¬ is_bigint v ∧ holds h l v).
  { intros l cell v Hl Hv. split; [|by exists cell].
    pose proof (Hsmall l cell Hl) as Hcell.
    rewrite Forall_forall in Hcell. by apply Hcell. }
  induction fuel as [|fuel IH]; intros stack v e Hv He; simpl in He;
    rewrite (toJSON_quiet h v Hquiet) in He; simpl in He;
    (destruct v as [ | | | [] | | | | l]; try done);
    (destruct (h !! l) as [cell|] eqn:Hl; [|done]).
  - destruct cell; try done;
      (case_decide; [|done]); injection He as <-;
      (split; [by eauto|]); left; exists l; (split; [done | constructor]).
  - destruct cell as [items|props| |hook props]; [| |done|];
      (case_decide as Hstack;
        [injection He as <-; (split; [by eauto|]); left; exists l;
         (split; [done | constructor])|]).
    + apply bind_throw in He; [|done].
      apply each_throw in He as (v & Hin & He).
      destruct (Hstored l _ v Hl Hin) as [Hsmallv Hheld].
      destruct (IH _ _ _ Hsmallv He) as [Hform Hwhere].
      split; [done|]. by apply (Hchild l v stack).
    + apply bind_throw in He; [|done].
      apply each_throw in He as ([k v] & Hin & He). simpl in He.
      apply bind_throw in He; [|done].
      destruct (Hstored l _ v Hl (own_props_stored (OObject props) k v Hin))
        as [Hsmallv Hheld].
      destruct (IH _ _ _ Hsmallv He) as [Hform Hwhere].
      split; [done|]. by apply (Hchild l v stack).
    + by destruct (Hquiet l _ Hl).
Qed.

Lemma cyclic_val_ok h v : cyclic h v → val_ok h v.
Proof.
  intros (l & v' & Hto & Hheld & _).
  destruct Hto as [l | l0 v l Hv _]; simpl.
  - destruct Hheld as (o & Ho & _). by eexists.
  - destruct Hv as (o & Ho & _). by eexists.
Qed.

Lemma stringify_cyclic h v :
  closed h → quiet h → bigint_free h v →
  (cyclic h v ↔ ∃ e, stringify h v = Throw e) ∧
  ∀ e, stringify h v = Throw e → ∃ stack l, e = circular h stack l.
Proof.
  intros Hclosed Hquiet [Hv Hsmall].
  assert (Hthrow : ∀ e, stringify h v = Throw e →
    (∃ stack l, e = circular h stack l) ∧ cyclic h v).
  { intros e He.
    destruct (serialize_throw_cyclic h _ Hquiet Hsmall _ _ _ Hv He)
      as [Hform [(l & Hl & _)|Hcyc]];
      [by apply elem_of_nil in Hl | done]. }
  split; [|intros e He; by destruct (Hthrow e He)].
  split; [|intros [e He]; by destruct (Hthrow e He)].
  intros Hcyc.
  pose proof (serialize_cyclic h v (S (size h)) [] ) as Hok.
  pose proof (stringify_closed h v) as Hstuck.
  unfold stringify in *.
  destruct (serialize (S (size h)) h [] v) as [o|e|s] eqn:Hs.
  - by destruct (Hok o).
  - by exists e.
  - destruct (Hstuck s); [done | by apply cyclic_val_ok | done].
Qed.

(** X12. In a closed store without [toJSON] methods and BigInts,
    [JSON.stringify] throws exactly for the arguments from which a cycle can
    be reached: a cycle of any length, anywhere below the argument.
    [stateExporter] then logs the engine's message for the cycle and returns
    [null], leaving the store as it was. *)
Theorem stateExporter_cyclic (x : val) (w : world) :
  closed (heap w) → quiet (heap w) → bigint_free (heap w) x →
  (cyclic (heap w) x ↔ ∃ e, stringify (heap w) x = Throw e) ∧
  (cyclic (heap w) x →
   ∃ stack l,
     stateExporter x w =
       (Ok VNull,
        mkWorld (heap w)
          (console w ++ [circular_message (heap w) stack l]))).
Proof.
  intros Hclosed Hquiet Hsmall.
  destruct (stringify_cyclic _ _ Hclosed Hquiet Hsmall) as [Hiff Hform].
  split; [exact Hiff|]. intros [e He]%Hiff.
  destruct (Hform e He) as (stack & l & ->). exists stack, l.
  apply (stateExporter_caught w x "TypeError"). by rewrite He.
Qed.

(** X13. On the values that are not references: a boolean, a string and a
    finite number other than zero come back as they are, and either zero
    comes back as [0]; a number that is not finite comes back as [null]; in
    all these cases nothing is logged and the store is untouched, so a [null]
    result is not by itself a sign of failure.  A symbol and a BigInt come
    back as [null] with one message logged. *)
Theorem stateExporter_primitives (w : world) :
  (∀ b, stateExporter (VBool b) w = (Ok (VBool b), w)) ∧
  (∀ s, stateExporter (VString s) w = (Ok (VString s), w)) ∧
  (∀ negative mantissa exponent,
     stateExporter (VNumber (Finite (Binary negative mantissa exponent))) w
       = (Ok (VNumber (Finite (Binary negative mantissa exponent))), w)) ∧
  (∀ negative,
     stateExporter (VNumber (Finite (Zero negative))) w
       = (Ok (VNumber (Finite (Zero false))), w)) ∧
  stateExporter (VNumber NaN) w = (Ok VNull, w) ∧
  (∀ negative, stateExporter (VNumber (Infinity negative)) w = (Ok VNull, w)) ∧
  (∀ description,
     stateExporter (VSymbol description) w
       = (Ok VNull,
          mkWorld (heap w)
            (console w ++ ["Unexpected token u in JSON at position 0"]))) ∧
  (∀ z, stateExporter (VBigInt z) w
          = (Ok VNull, mkWorld (heap w) (console w ++ [bigint_message]))).
Proof. destruct w as [h log]. repeat split. Qed.

(** Values that are not plain data but reach no cycle. *)
Lemma each_ok_Forall2 {A B} (f : A → outcome B) (l : list A) (k : list B) :
  each f l = Ok k → Forall2 (λ a b, f a = Ok b) l k.
Proof.
  revert k. induction l as [|a l IH]; intros k; simpl.
  - intros [= <-]. constructor.
  - destruct (f a) as [b| |] eqn:Ha; try done. simpl.
    destruct (each f l) as [bs| |]; try done. simpl.
    intros [= <-]. constructor; [done | by apply IH].
Qed.

Lemma serialize_renders h fuel :
  quiet h →
  ∀ stack v o, serialize fuel h stack v = Ok o → Rendering.renders h v o.
Proof.
  intros Hquiet.
  induction fuel as [|fuel IH]; intros stack v o Ho; simpl in Ho;
    rewrite (toJSON_quiet h v Hquiet) in Ho; simpl in Ho;
    (destruct v as [ | | | [] | | | | l]; simplify_eq; try constructor);
    (destruct (h !! l) as [cell|] eqn:Hl; [|done]);
    pose proof (Hquiet l _ Hl) as Hcell.
  - destruct cell; try done; try (by case_decide).
    injection Ho as <-. by constructor.
  - destruct cell as [items|props| |hook props]; [| | |done].
    + case_decide; [done|].
      destruct (each _ items) as [os| |] eqn:Heach; try done.
      simpl in Ho. injection Ho as <-.
      eapply Rendering.ren_array; [done|].
      apply each_ok_Forall2 in Heach.
      eapply Forall2_impl; [exact Heach|]. simpl. eauto.
    + case_decide; [done|]. simpl in Ho.
      destruct (each _ props) as [kos| |] eqn:Heach; try done.
      simpl in Ho. injection Ho as <-.
      eapply Rendering.ren_object; [done|].
      apply each_ok_Forall2 in Heach.
      eapply Forall2_impl; [exact Heach|]. simpl.
      intros [k v] ko Hko. simpl in Hko.
      destruct (serialize fuel h (l :: stack) v) as [o'| |] eqn:Hv;
        try done.
      simpl in Hko. injection Hko as <-. split; [done|]. by eapply IH.
    + injection Ho as <-. by constructor.
Qed.

Lemma renders_nothing h v :
  Rendering.renders h v None →
  v = VUndefined ∨ (∃ description, v = VSymbol description) ∨
  ∃ l, v = VRef l ∧ h !! l = Some OFunction.
Proof. inversion 1; subst; eauto. Qed.

(** X14. In a closed store without [toJSON] methods and BigInts, an
    argument that reaches no cycle is serialized to its rendering.  When it
    has one, [stateExporter] returns, without a log, a copy of the rendering
    in new cells; the copy is lossy where the argument is not plain data
    (see [renders]).  When it has none, the argument being [undefined], a
    symbol or a function, [stateExporter] logs the error of [JSON.parse] and
    returns [null]. *)
Theorem stateExporter_acyclic (x : val) (w : world) :
  closed (heap w) → quiet (heap w) → bigint_free (heap w) x →
  val_ok (heap w) x → ¬ cyclic (heap w) x →
  ∃ o,
    stringify (heap w) x = Ok o ∧
    Rendering.renders (heap w) x o ∧
    match o with
    | Some t =>
        ∃ r h',
          stateExporter x w = (Ok r, mkWorld h' (console w)) ∧
          heap w ⊆ h' ∧
          denotes (h' ∖ heap w) r t
    | None =>
        (x = VUndefined ∨ (∃ description, x = VSymbol description) ∨
         ∃ l, x = VRef l ∧ heap w !! l = Some OFunction) ∧
        stateExporter x w =
          (Ok VNull,
           mkWorld (heap w)
             (console w ++ ["Unexpected token u in JSON at position 0"]))
    end.
Proof.
  intros Hclosed Hquiet Hsmall Hx Hacyclic.
  destruct (stringify_cyclic _ _ Hclosed Hquiet Hsmall) as [Hiff _].
  pose proof (stringify_closed (heap w) x) as Hstuck.
  destruct (stringify (heap w) x) as [o|e|s] eqn:Hs.
  - pose proof (serialize_renders _ _ Hquiet _ _ _ Hs) as Hren.
    exists o. split; [done|]. split; [done|].
    destruct o as [t|].
    + unfold stateExporter. case_decide as Hnull.
      { subst x. inversion Hren; subst. destruct w as [h log].
        exists VNull, h. split; [done|]. split; [done | constructor]. }
      rewrite Hs. simpl.
      pose proof (build_fresh t (heap w)) as [Hsub Hfresh].
      destruct (build t (heap w)) as [r h']. by exists r, h'.
    + split; [by apply renders_nothing|].
      unfold stateExporter. case_decide as Hnull.
      { subst x. inversion Hren. }
      by rewrite Hs.
  - destruct Hacyclic. apply Hiff. by exists e.
  - by destruct (Hstuck s).
Qed.

(** X16. [stateExporter(null)] is [null].  For plain data [x], that is a
    value denoting some JSON tree [t], the result [r] denotes the same tree
    (equal in value), the store that was there is unchanged, and every cell
    of [r] is a cell allocated by the call (a deep copy): when [x] is a
    reference, [r] is a different one; when [x] is a primitive, [r] is [x],
    but for [-0], which comes back as [0]. *)
Theorem stateExporter_deep_copy :
  (∀ w, stateExporter VNull w = (Ok VNull, w)) ∧
  (∀ w x t,
     denotes (heap w) x t →
     ∃ r h',
       stateExporter x w = (Ok r, mkWorld h' (console w)) ∧
       heap w ⊆ h' ∧
       denotes h' r t ∧
       denotes (h' ∖ heap w) r t ∧
       match x with
       | VRef l => ∃ l', r = VRef l' ∧ l' ≠ l ∧ heap w !! l' = None
       | VNumber (Finite (Zero true)) => r = VNumber (Finite (Zero false))
       | _ => r = x
       end).
Proof. split; [done | exact stateExporter_plain]. Qed.

End ExporterFacts.

(** * The plugin and the hooks *)

Section Hooks.
Import JS Plugin.
Context `{engine : Engine}.

Lemma attach_plugin_attached (i : plugin_id) (attached : list plugin_id) :
  i ∈ attach_plugin i attached.
Proof. unfold attach_plugin. case_decide; [done | by left]. Qed.

(** X15. [Methods(state)] throws exactly when the Methods plugin is not
    attached to the state.  [useLGMethods()] attaches it first, so it returns
    its handlers whatever was attached before; [exportState] is
    [stateExporter]; and a second call attaches nothing more. *)
Theorem useLGMethods_never_throws (attached : list plugin_id) :
  ((∃ e, Methods attached = Throw e) ↔ MethodsId ∉ attached) ∧
  (∃ handlers,
     useLGMethods attached
       = (Ok handlers, attach_plugin Methods_descriptor attached) ∧
     exportState handlers = Exporter.stateExporter ∧
     Methods (attach_plugin Methods_descriptor attached)
       = Ok (methods handlers)) ∧
  (useLGMethods (useLGMethods attached).2).2 = (useLGMethods attached).2.
Proof.
  split; [|split].
  - unfold Methods, attach_id. case_decide as Hin.
    + split; [by intros [e ?] | done].
    + split; [done | by eexists].
  - unfold useLGMethods, Methods, attach_id.
    rewrite decide_True by apply attach_plugin_attached. simpl.
    eexists. split; [reflexivity|]. by split.
  - unfold useLGMethods. simpl. unfold attach_plugin at 1.
    by rewrite decide_True by apply attach_plugin_attached.
Qed.

End Hooks.

(** * The statements at work on the samples *)

Section Witnesses.
Import JS JSON Plain Exporter Reach MethodsInstance.
#[local] Existing Instance Samples.sample_engine.


Lemma sample_plain :
  denotes Samples.sample_heap (VRef 1%positive) Samples.sample_tree.
Proof.
  eapply den_object; [reflexivity|].
  repeat constructor.
  eapply den_array; [reflexivity|]. repeat constructor.
Qed.


Lemma sample_quiet : quiet Samples.sample_heap.
Proof. by apply (bool_decide_unpack _); vm_compute. Qed.

Lemma cycle_inert :
  closed Samples.cycle_heap ∧ quiet Samples.cycle_heap ∧
  bigint_free Samples.cycle_heap (VRef 3%positive).
Proof. repeat split; by apply (bool_decide_unpack _); vm_compute. Qed.

Lemma lossy_inert :
  closed Samples.lossy_heap ∧ quiet Samples.lossy_heap ∧
  bigint_free Samples.lossy_heap (VRef 1%positive).
Proof. repeat split; by apply (bool_decide_unpack _); vm_compute. Qed.

Lemma getResponse_inherited_name_witness :
  getResponse LGState "toString"
    = Throw (ExnError "TypeError" (state_read_message "toString")) ∧
  getResponse (Hookstate.set_response "get" (mkResponse "" "") LGState) "get"
    = Ok Hookstate.Undefined.
Proof.
  split.
  - destruct (getResponse_inherited_name LGState) as [Hinherited _].
    apply Hinherited.
    + repeat first [by left | right].
    + simpl. rewrite dom_empty_L. apply not_elem_of_empty.
  - destruct (getResponse_inherited_name
                (Hookstate.set_response "get" (mkResponse "" "") LGState))
      as [_ Hmethod].
    apply (Hmethod "get" (mkResponse "" "")); [by left|].
    simpl. apply lookup_insert_eq.
Defined.

Lemma stateExporter_catch_throws_witness :
  stateExporter (VRef 1%positive) Samples.hostile_world
    = (Throw (ExnError "TypeError" not_primitive_message),
       Samples.hostile_world).
Proof.
  destruct (stateExporter_catch_throws Samples.hostile_world 1%positive [])
    as (_ & _ & Hescapes); [reflexivity | exact Hescapes].
Defined.





Lemma stateExporter_frame_witness :
  Samples.sample_heap
    ⊆ heap (stateExporter (VRef 1%positive) Samples.sample_world).2.
Proof.
  destruct (stateExporter_frame (VRef 1%positive) Samples.sample_world
              sample_quiet) as [Hkept _].
  exact Hkept.
Defined.

Lemma stateExporter_result_plain_witness :
  ∃ r w' t,
    stateExporter (VRef 1%positive) Samples.sample_world = (Ok r, w') ∧
    denotes (heap w') r t ∧
    ∃ r' h'',
      stateExporter r w' = (Ok r', mkWorld h'' (console w')) ∧
      denotes h'' r' t.
Proof.
  destruct (stateExporter_plain Samples.sample_world (VRef 1%positive)
              Samples.sample_tree sample_plain) as (r & h' & Hr & _).
  destruct (stateExporter_result_plain _ _ _ _ Hr) as (t & Ht & Hagain).
  exists r, (mkWorld h' (console Samples.sample_world)), t.
  split; [exact Hr|]. split; [exact Ht | exact Hagain].
Defined.

Lemma cycle_cyclic : cyclic Samples.cycle_heap (VRef 3%positive).
Proof.
  exists 1%positive, (VRef 2%positive). split; [|split].
  - apply (reaches_step _ 3%positive (VRef 1%positive)); [|constructor].
    eexists. split; [reflexivity|]. by left.
  - eexists. split; [reflexivity|]. by left.
  - apply (reaches_step _ 2%positive (VRef 1%positive)); [|constructor].
    eexists. split; [reflexivity|]. by left.
Qed.

Lemma stateExporter_cyclic_witness :
  ∃ stack l,
    stateExporter (VRef 3%positive) Samples.cycle_world =
      (Ok VNull,
       mkWorld Samples.cycle_heap
         ["earlier message";
          circular_message Samples.cycle_heap stack l]).
Proof.
  destruct cycle_inert as (Hclosed & Hquiet & Hsmall).
  destruct (stateExporter_cyclic (VRef 3%positive) Samples.cycle_world
              Hclosed Hquiet Hsmall) as [_ Hlogged].
  exact (Hlogged cycle_cyclic).
Defined.

Lemma stateExporter_acyclic_witness :
  ∃ r h',
    stateExporter (VRef 1%positive) Samples.lossy_world
      = (Ok r, mkWorld h' []) ∧
    Samples.lossy_heap ⊆ h' ∧
    denotes (h' ∖ Samples.lossy_heap) r Samples.lossy_tree.
Proof.
  destruct lossy_inert as (Hclosed & Hquiet & Hsmall).
  destruct (stateExporter_acyclic (VRef 1%positive) Samples.lossy_world
              Hclosed Hquiet Hsmall) as (o & Ho & _ & Hcopy).
  - by eexists.
  - intros Hcyc.
    destruct (stringify_cyclic Samples.lossy_heap (VRef 1%positive)
                Hclosed Hquiet Hsmall) as [Hiff _].
    apply Hiff in Hcyc as [e He]. vm_compute in He. discriminate He.
  - vm_compute in Ho. injection Ho as <-. exact Hcopy.
Defined.

Lemma stateExporter_deep_copy_witness :
  ∃ r h',
    stateExporter (VRef 1%positive) Samples.sample_world
      = (Ok r, mkWorld h' []) ∧
    Samples.sample_heap ⊆ h' ∧
    denotes h' r Samples.sample_tree ∧
    ∃ l', r = VRef l' ∧ l' ≠ 1%positive.
Proof.
  destruct stateExporter_deep_copy as [_ Hplain].
  destruct (Hplain Samples.sample_world (VRef 1%positive)
              Samples.sample_tree sample_plain)
    as (r & h' & Hr & Hsub & Hden & _ & l' & -> & Hl' & _).
  exists (VRef l'), h'. split; [exact Hr|]. split; [exact Hsub|].
  split; [exact Hden|]. by exists l'.
Defined.

End Witnesses.
